(** * Distance-Metrics: discrete Frechet and directed Hausdorff distances

    A shallow embedding of [Frechet_distance/Frechet.hpp] and
    [Hausdorff distance/Hausdorff.hpp].

    Both headers are templates over the scalar type [T].  The embedding keeps
    that parameter: the functions are written once over a [Scalar] interface
    (the operations the templates use) and run at two instances,
    - [float]: IEEE binary64, i.e. the templates at [T = double];
    - [Z]: exact integers, a scalar type on which the order and ring laws that
      the general theorems assume hold without exception; the integers below
      [2 ^ 1024] are its finite values.

    Calls return an [outcome]: a normal return, a thrown [std::runtime_error],
    or undefined behaviour (an out-of-range [operator[]], read or write, or
    an integer division by zero).  The two [while] loops whose termination
    is not evident from their text take fuel. *)

From Stdlib Require Import String.
From Stdlib Require Import List ZArith Lia Bool PeanoNat Permutation.
From Stdlib Require Import PrimFloat.
Import ListNotations.

Set Implicit Arguments.

(** ** Outcomes *)

Inductive outcome (A : Type) : Type :=
| Ret (a : A)
| Throw (what : string)
| Undefined
| OutOfFuel.

Arguments Ret {A} a.
Arguments Throw {A} what.
Arguments Undefined {A}.
Arguments OutOfFuel {A}.

Definition bind {A B : Type} (c : outcome A) (k : A -> outcome B) : outcome B :=
  match c with
  | Ret a => k a
  | Throw w => Throw w
  | Undefined => Undefined
  | OutOfFuel => OutOfFuel
  end.

Notation "x <- c ;; k" := (bind c (fun x => k))
  (at level 61, c at next level, right associativity).
Notation "' pat <- c ;; k" := (bind c (fun x => match x with pat => k end))
  (at level 61, pat pattern, c at next level, right associativity).

(** A [for] loop over an explicit index range, threading the loop state. *)
Fixpoint forEach {S X : Type} (body : S -> X -> outcome S) (xs : list X) (s : S)
  : outcome S :=
  match xs with
  | [] => Ret s
  | x :: xs' => s' <- body s x ;; forEach body xs' s'
  end.

(** ** The scalar type [T] of the templates *)

Class Scalar (T : Type) : Type := {
  zero : T;                 (* the literal 0.0 *)
  one : T;                  (* the literal 1 *)
  add : T -> T -> T;
  sub : T -> T -> T;
  mul : T -> T -> T;
  sqrt : T -> T;            (* std::sqrt *)
  ltb : T -> T -> bool;     (* a < b *)
  leb : T -> T -> bool;     (* a <= b *)
  eqb : T -> T -> bool;     (* a == b *)
  limit_max : T;            (* std::numeric_limits<T>::max() *)
  infinity : T;             (* std::numeric_limits<T>::infinity() *)
  isfinite : T -> bool      (* isfinite(a) *)
}.

(** The laws of an exact, totally ordered scalar. *)
Class ScalarLaws (T : Type) `{Scalar T} : Prop := {
  ltb_irrefl : forall x, ltb x x = false;
  ltb_trans : forall x y z, ltb x y = true -> ltb y z = true -> ltb x z = true;
  ltb_connex : forall x y, ltb x y = false -> ltb y x = false -> x = y;
  leb_ltb : forall x y, leb x y = negb (ltb y x);
  eqb_eq : forall x y, eqb x y = true <-> x = y;
  sub_diag : forall x, sub x x = zero;
  mul_zero : mul zero zero = zero;
  add_zero : add zero zero = zero;
  sq_nonneg : forall x, ltb (mul x x) zero = false;
  add_nonneg : forall x y,
      ltb x zero = false -> ltb y zero = false -> ltb (add x y) zero = false;
  sq_sub_swap : forall x y, mul (sub x y) (sub x y) = mul (sub y x) (sub y x);
  sqrt_zero : sqrt zero = zero;
  sqrt_nonneg : forall x, ltb (sqrt x) zero = false
}.

Arguments ScalarLaws T {_}.

(** What [isfinite] and [infinity()] have to do with the order: a finite
    value is below [infinity()]. *)
Class InfinityLaws (T : Type) `{Scalar T} : Prop := {
  finite_below_infinity : forall x, isfinite x = true -> ltb x infinity = true
}.

Arguments InfinityLaws T {_}.

#[export] Instance float_Scalar : Scalar float := {|
  zero := 0%float;
  one := 1%float;
  add := PrimFloat.add;
  sub := PrimFloat.sub;
  mul := PrimFloat.mul;
  sqrt := PrimFloat.sqrt;
  ltb := PrimFloat.ltb;
  leb := PrimFloat.leb;
  eqb := PrimFloat.eqb;
  limit_max := 0x1.fffffffffffffp+1023%float;
  infinity := PrimFloat.infinity;
  isfinite := PrimFloat.is_finite
|}.

#[export] Instance Z_Scalar : Scalar Z := {|
  zero := 0%Z;
  one := 1%Z;
  add := Z.add;
  sub := Z.sub;
  mul := Z.mul;
  sqrt := Z.sqrt;
  ltb := Z.ltb;
  leb := Z.leb;
  eqb := Z.eqb;
  limit_max := 2147483647%Z;  (* that of a 32-bit int, well below [infinity] *)
  infinity := (2 ^ 1024)%Z;   (* the integers from here on count as not finite *)
  isfinite := fun x => (x <? 2 ^ 1024)%Z
|}.

(** ** Points, trajectories and matrices: [std::vector]s *)

Definition point (T : Type) : Type := list T.
Definition trajectory (T : Type) : Type := list (point T).
Definition matrix (T : Type) : Type := list (list T).

Section Containers.
Context {T : Type} `{Scalar T}.

(** [std::max(a, b)] is [(a < b) ? b : a]; [std::min(a, b)] is
    [(b < a) ? b : a]. *)
Definition smax (a b : T) : T := if ltb a b then b else a.
Definition smin (a b : T) : T := if ltb b a then b else a.

(** [v[i]] on a vector: out of range is undefined behaviour. *)
Definition at_ {X : Type} (v : list X) (i : nat) : outcome X :=
  match nth_error v i with
  | Some x => Ret x
  | None => Undefined
  end.

Definition mget (M : matrix T) (i j : nat) : option T :=
  match nth_error M i with
  | Some row => nth_error row j
  | None => None
  end.

(** Reading [M[i][j]]. *)
Definition rd (M : matrix T) (i j : nat) : outcome T :=
  match mget M i j with
  | Some x => Ret x
  | None => Undefined
  end.

Fixpoint upd {X : Type} (l : list X) (k : nat) (f : X -> X) : list X :=
  match l, k with
  | [], _ => []
  | x :: l', 0 => f x :: l'
  | x :: l', S k' => x :: upd l' k' f
  end.

(** Writing [M[i][j] = v].  Every write in the sources sits behind reads of
    [l1[i]] and [l2[j]] (or of the same matrix row), which are undefined
    first when an index is out of range; the write itself is therefore
    total here and leaves the matrix alone outside its bounds. *)
Definition mset (M : matrix T) (i j : nat) (v : T) : matrix T :=
  upd M i (fun row => upd row j (fun _ => v)).

(** [n] rows of [std::vector<T>(m)], value-initialised. *)
Definition zeros (n m : nat) : matrix T := repeat (repeat zero m) n.
End Containers.

(** ** Frechet.hpp *)

Module Frechet.
Section WithScalar.
Context {T : Type} `{Scalar T}.

(** The accumulation loop of [distanceMetric]: [idx] runs over [a]'s
    coordinates and reads [b[idx]] unchecked. *)
Fixpoint sumSquares (a b : point T) (sum : T) : outcome T :=
  match a with
  | [] => Ret sum
  | x :: a' =>
      match b with
      | [] => Undefined
      | y :: b' => sumSquares a' b' (add sum (mul (sub x y) (sub x y)))
      end
  end.

Definition distanceMetric (a b : point T) : outcome T :=
  sum <- sumSquares a b zero ;; Ret (sqrt sum).

Section Band.
Variables (l1 l2 : trajectory T) (n m : nat).

(** One iteration of either core-diagonal loop; [jOf] is the loop's
    formula for [j]. *)
Definition diagStep (jOf : nat -> nat) (st : matrix T * T) (i : nat)
  : outcome (matrix T * T) :=
  let '(distanceMatrix, diagMax) := st in
  let j := jOf i in
  p1 <- at_ l1 i ;;
  p2 <- at_ l2 j ;;
  d <- distanceMetric p1 p2 ;;
  let distanceMatrix := mset distanceMatrix i j d in
  dij <- rd distanceMatrix i j ;;
  Ret (distanceMatrix, smax dij diagMax).

Variable diagMax : T.

(** [while ((j < m || d <= diagMax) && j < jMin) { ... }] *)
Fixpoint upperWhile (fuel : nat) (jMin i j : nat) (d : T) (D : matrix T)
  : outcome (nat * matrix T) :=
  if ((j <? m) || leb d diagMax) && (j <? jMin) then
    match fuel with
    | 0 => OutOfFuel
    | S fuel' =>
        match (p1 <- at_ l1 i ;; p2 <- at_ l2 j ;; distanceMetric p1 p2) with
        | Ret d' =>
            if ltb d' diagMax
            then upperWhile fuel' jMin i (S j) d' (mset D i j d')
            else upperWhile fuel' jMin i j d' D
        | Throw w => Throw w
        | Undefined => Undefined
        | OutOfFuel => OutOfFuel
        end
    end
  else Ret (j, D).

(** One row of the upper-right pass; [uninit] is the indeterminate
    content of the local [T d;]. *)
Definition upperRow (fuel : nat) (uninit : T) (st : nat * matrix T) (i : nat)
  : outcome (nat * matrix T) :=
  let '(jMin, D) := st in
  upperWhile fuel jMin i i uninit D.

(** The body of the [do ... while] of the lower-left pass. *)
Definition lowerBody (i j : nat) (D : matrix T) : outcome (nat * T * matrix T) :=
  p1 <- at_ l1 i ;;
  p2 <- at_ l2 j ;;
  d <- distanceMetric p1 p2 ;;
  if ltb d diagMax then Ret (S i, d, mset D i j d) else Ret (i, d, D).

(** [do { ... } while ((i < n || d <= diagMax) && (i < iMin));] *)
Fixpoint lowerDoWhile (fuel : nat) (iMin i j : nat) (D : matrix T)
  : outcome (nat * matrix T) :=
  match lowerBody i j D with
  | Ret (i', d, D') =>
      if ((i' <? n) || leb d diagMax) && (i' <? iMin) then
        match fuel with
        | 0 => OutOfFuel
        | S fuel' => lowerDoWhile fuel' iMin i' j D'
        end
      else Ret (i', D')
  | Throw w => Throw w
  | Undefined => Undefined
  | OutOfFuel => OutOfFuel
  end.

Definition lowerCol (fuel : nat) (st : nat * matrix T) (j : nat)
  : outcome (nat * matrix T) :=
  let '(iMin, D) := st in
  lowerDoWhile fuel iMin j j D.
End Band.

(** [computeDistanceMatrix]: the trajectories are passed by reference, so
    the call returns them too (swapped when [n < m]); [distanceMatrix] is
    the empty vector its caller [computeFrechetMatrix] passes. *)
Definition computeDistanceMatrix (fuel : nat) (uninit : T)
           (l1 l2 : trajectory T) : outcome (trajectory T * trajectory T * matrix T * T) :=
  let diagMax : T := zero in
  let n := length l1 in
  let m := length l2 in
  let '(n, m, l1, l2) := if n <? m then (m, n, l2, l1) else (n, m, l1, l2) in
  if m =? 0 then Undefined else
  let q := n / m in
  let r := n mod m in
  let distanceMatrix := zeros n m in
  '(distanceMatrix, diagMax) <-
    forEach (diagStep l1 l2 (fun i => i / (q + 1)))
            (seq 0 (r * (q + 1) + 1)) (distanceMatrix, diagMax) ;;
  '(distanceMatrix, diagMax) <-
    forEach (diagStep l1 l2 (fun i => (i - r) / q))
            (seq (r * (q + 1)) (n - r * (q + 1))) (distanceMatrix, diagMax) ;;
  '(_, distanceMatrix) <-
    forEach (upperRow l1 l2 m diagMax fuel uninit) (seq 0 n) (0, distanceMatrix) ;;
  '(_, distanceMatrix) <-
    forEach (lowerCol l1 l2 n diagMax fuel) (seq 0 m) (0, distanceMatrix) ;;
  Ret (l1, l2, distanceMatrix, diagMax).

(** The sentinel [numeric_limits<T>::max() - 1]. *)
Definition infinite : T := sub limit_max one.

Section Sweep.
Variables (distanceMatrix : matrix T) (m : nat).

(** [distanceMatrix[i][j] != 0] *)
Definition isSet (i j : nat) : outcome bool :=
  d <- rd distanceMatrix i j ;; Ret (negb (eqb d zero)).

(** The three guarded updates of [minimum] for cell [(i, j)]. *)
Definition minimumAt (frechetMatrix : matrix T) (i j : nat) : outcome T :=
  let minimum := infinite in
  minimum <-
    (if (0 <? i) && (0 <? j) then
       s <- isSet (i - 1) (j - 1) ;;
       if s then rd frechetMatrix (i - 1) (j - 1) else Ret minimum
     else Ret minimum) ;;
  minimum <-
    (if 0 <? i then
       s <- isSet (i - 1) j ;;
       if s then (f <- rd frechetMatrix (i - 1) j ;; Ret (smin minimum f))
       else Ret minimum
     else Ret minimum) ;;
  (if 0 <? j then
     s <- isSet i (j - 1) ;;
     if s then (f <- rd frechetMatrix i (j - 1) ;; Ret (smin minimum f))
     else Ret minimum
   else Ret minimum).

(** [while (distanceMatrix[i][j] == 0) j++;] over the cells of row [i]
    from column [j] on.  Running off the row is an out-of-range read. *)
Fixpoint skipUnset (cells : list T) (j : nat) : outcome nat :=
  match cells with
  | [] => Undefined
  | c :: cells' => if eqb c zero then skipUnset cells' (S j) else Ret j
  end.

(** [while (distanceMatrix[i][j] != 0 && j < m) { ... j++; }] over the
    cells of row [i] from column [j] on.  The left operand is evaluated
    first: once the cells of the row are used up ([j = m]) the condition
    reads [distanceMatrix[i][m]], one element past the row, before it tests
    [j < m]; that read is undefined behaviour. *)
Fixpoint sweepRow (cells : list T) (i j : nat) (frechetMatrix : matrix T)
  : outcome (matrix T) :=
  match cells with
  | [] => Undefined
  | c :: cells' =>
      if negb (eqb c zero) && (j <? m) then
        minimum <- minimumAt frechetMatrix i j ;;
        sweepRow cells' i (S j) (mset frechetMatrix i j (smax minimum c))
      else Ret frechetMatrix
  end.

(** The body of [for (i = 1; i <= (n-1); ++i)]; the state is
    [(jMin, frechetMatrix)]. *)
Definition frechetRow (st : nat * matrix T) (i : nat) : outcome (nat * matrix T) :=
  let '(jMin, frechetMatrix) := st in
  row <- at_ distanceMatrix i ;;
  j <- skipUnset (skipn jMin row) jMin ;;
  frechetMatrix <- sweepRow (skipn j row) i j frechetMatrix ;;
  Ret (j, frechetMatrix).
End Sweep.

(** [computeFrechetMatrix], with [frechetMatrix] the empty vector that
    [frechetDistance] passes. *)
Definition computeFrechetMatrix (fuel : nat) (uninit : T) (l1 l2 : trajectory T)
  : outcome (trajectory T * trajectory T * matrix T) :=
  '(l1, l2, distanceMatrix, _) <- computeDistanceMatrix fuel uninit l1 l2 ;;
  let n := length l1 in
  let m := length l2 in
  let frechetMatrix := zeros n m in
  d00 <- rd distanceMatrix 0 0 ;;
  let frechetMatrix := mset frechetMatrix 0 0 d00 in
  '(_, frechetMatrix) <-
    forEach (frechetRow distanceMatrix m) (seq 1 (n - 1)) (0, frechetMatrix) ;;
  Ret (l1, l2, frechetMatrix).

Definition frechetDistance (fuel : nat) (uninit : T) (l1 l2 : trajectory T)
  : outcome (trajectory T * trajectory T * T) :=
  '(l1, l2, frechetMatrix) <- computeFrechetMatrix fuel uninit l1 l2 ;;
  v <- rd frechetMatrix (length l1 - 1) (length l2 - 1) ;;
  Ret (l1, l2, v).
End WithScalar.
End Frechet.

(** ** Hausdorff.hpp *)

Section Hausdorff.
Context {T : Type} `{Scalar T}.

Section Loops.
Variables (a b : trajectory T).

(** The loop over [indicesB] for one [indexA]; the result is
    [(cMin, haveWeBroken)]. *)
Fixpoint innerLoop (indexA : nat) (indicesB : list nat) (cMax cMin : T)
  : outcome (T * bool) :=
  match indicesB with
  | [] => Ret (cMin, false)
  | indexB :: rest =>
      match (pa <- at_ a indexA ;; pb <- at_ b indexB ;;
             Frechet.sumSquares pa pb zero) with
      | Ret d =>
          if ltb d cMax then Ret (cMin, true)
          else innerLoop indexA rest cMax (if ltb d cMin then d else cMin)
      | Throw w => Throw w
      | Undefined => Undefined
      | OutOfFuel => OutOfFuel
      end
  end.

(** One iteration of the loop over [indicesA]: [cMin] starts at
    [std::numeric_limits<T>::infinity()]. *)
Definition outerStep (indicesB : list nat) (cMax : T) (indexA : nat)
  : outcome T :=
  '(cMin, haveWeBroken) <- innerLoop indexA indicesB cMax infinity ;;
  if isfinite cMin && leb cMax cMin && negb haveWeBroken
  then Ret cMin else Ret cMax.
End Loops.

(** [hausdorffDistance]; [indicesA] and [indicesB] are the two index
    vectors as [std::shuffle] left them. *)
Definition hausdorffDistance (indicesA indicesB : list nat)
           (a1 b1 : trajectory T) : outcome T :=
  let a := a1 in
  let b := b1 in
  match a, b with
  | [], _ | _, [] =>
      Throw "One of the vectors passed to hausdorffDistance is empty."%string
  | _, _ =>
      cMax <- forEach (outerStep a b indicesB) indicesA zero ;;
      Ret (sqrt cMax)
  end.
End Hausdorff.

(** * Specification-side definitions *)

Section Pure.
Context {T : Type} `{Scalar T}.

(** Sum of squared coordinate differences, added onto [sum]. *)
Fixpoint sumSq (a b : point T) (sum : T) : T :=
  match a, b with
  | x :: a', y :: b' => sumSq a' b' (add sum (mul (sub x y) (sub x y)))
  | _, _ => sum
  end.

(** The Euclidean distance and its square. *)
Definition sqDist (a b : point T) : T := sumSq a b zero.
Definition euclid (a b : point T) : T := sqrt (sqDist a b).

(** All points of a trajectory have [dim] coordinates. *)
Definition uniform (dim : nat) (l : trajectory T) : Prop :=
  Forall (fun p : point T => length p = dim) l.

(** An [n] by [m] matrix. *)
Definition shaped (n m : nat) (M : matrix T) : Prop :=
  length M = n /\ Forall (fun row : list T => length row = m) M.

(** [x <= y] on scalars, through the one comparison the code uses. *)
Definition sle (x y : T) : Prop := ltb y x = false.

(** Greatest and least elements of a list of scalars. *)
Definition IsMax (v : T) (l : list T) : Prop :=
  In v l /\ forall x, In x l -> sle x v.
Definition IsMin (v : T) (l : list T) : Prop :=
  In v l /\ forall x, In x l -> sle v x.

(** Maximum and minimum of a non-empty list ([zero] on the empty one). *)
Definition maxOf (l : list T) : T :=
  match l with
  | [] => zero
  | x :: l' => fold_left (fun acc y => smax y acc) l' x
  end.
Definition minOf (l : list T) : T :=
  match l with
  | [] => zero
  | x :: l' => fold_left (fun acc y => smin y acc) l' x
  end.

(** The directed Hausdorff distance from [a] to [b], squared: the maximum
    over the points [p] of [a] of the minimum over the points [q] of [b]
    of the squared Euclidean distance between [p] and [q]. *)
Definition directedHausdorffSq (a b : trajectory T) : T :=
  maxOf (map (fun p => minOf (map (fun q => sqDist p q) b)) a).

(** *** The banded distance matrix, in closed form *)

Section BandSpec.
Variables (A B : trajectory T).

(** The Euclidean distance between point [i] of [A] and point [j] of [B]. *)
Definition dist (i j : nat) : T := euclid (nth i A []) (nth j B []).

(** The companion column of row [i] on the core diagonal. *)
Definition coreJ (q r i : nat) : nat :=
  if i <=? r * (q + 1) then i / (q + 1) else (i - r) / q.

(** Writing the cells [(i, jOf i)], [i] in [xs], and tracking the running
    maximum. *)
Definition coreFold (jOf : nat -> nat) (xs : list nat) (st : matrix T * T)
  : matrix T * T :=
  fold_left (fun st i =>
               (mset (fst st) i (jOf i) (dist i (jOf i)),
                smax (dist i (jOf i)) (snd st))) xs st.

(** Rewriting the cells [(j, j)], [j] in [xs], whose distance is below
    [diagMax]. *)
Definition mainDiagFold (diagMax : T) (xs : list nat) (D : matrix T) : matrix T :=
  fold_left (fun D j => if ltb (dist j j) diagMax
                        then mset D j j (dist j j) else D) xs D.

Definition coreState : matrix T * T :=
  let n := length A in
  let m := length B in
  let q := n / m in
  let r := n mod m in
  coreFold (fun i => (i - r) / q) (seq (r * (q + 1)) (n - r * (q + 1)))
           (coreFold (fun i => i / (q + 1)) (seq 0 (r * (q + 1) + 1))
                     (zeros n m, zero)).

Definition bandMax : T := snd coreState.
Definition bandMatrix : matrix T :=
  mainDiagFold bandMax (seq 0 (length B)) (fst coreState).
End BandSpec.

(** *** Auxiliary definitions for the statements below *)

(** The rows the two core loops visit, in order. *)
Definition coreRows (n m : nat) : list nat :=
  let q := n / m in
  let r := n mod m in
  seq 0 (r * (q + 1) + 1) ++ seq (r * (q + 1)) (n - r * (q + 1)).

(** The scalar a call of [frechetDistance] returns, without the two
    by-reference arguments. *)
Definition returned (o : outcome (trajectory T * trajectory T * T)) : outcome T :=
  x <- o ;; Ret (snd x).

(** The tail of [computeFrechetMatrix] after [computeDistanceMatrix]. *)
Definition couplingFrom (D : matrix T) (n m : nat) : outcome (matrix T) :=
  d00 <- rd D 0 0 ;;
  '(_, F) <- forEach (Frechet.frechetRow D m) (seq 1 (n - 1))
                     (0, mset (zeros n m) 0 0 d00) ;;
  Ret F.

(** The update [if (d < cMin) cMin = d] folded over the distances of one
    inner loop. *)
Definition cMinStep (cMin d : T) : T := if ltb d cMin then d else cMin.

(** The squared distances one inner loop computes, in visiting order. *)
Definition visited (a b : trajectory T) (indexA : nat) (indicesB : list nat)
  : list T :=
  map (fun k => sqDist (nth indexA a []) (nth k b [])) indicesB.

(** The least squared distance from point [indexA] of [a] to [b]. *)
Definition nearestSq (a b : trajectory T) (indexA : nat) : T :=
  minOf (map (fun q => sqDist (nth indexA a []) q) b).

(** The least of [infinity()] and the squared distances from point
    [indexA] of [a] to the points of [b]. *)
Definition cMinOf (a b : trajectory T) (indexA : nat) : T :=
  minOf (infinity :: map (fun q => sqDist (nth indexA a []) q) b).

(** The effect of one outer iteration on [cMax]: a finite [cMinOf] above
    [cMax] replaces it. *)
Definition cMaxStep (a b : trajectory T) (cMax : T) (indexA : nat) : T :=
  if isfinite (cMinOf a b indexA) then smax (cMinOf a b indexA) cMax else cMax.

(** The greatest of [0] and the finite values [cMinOf a b i], [i] over the
    points of [a]. *)
Definition finiteMaxMinSq (a b : trajectory T) : T :=
  fold_left (cMaxStep a b) (seq 0 (length a)) zero.

(** The distance cell [(i, j)] exists and is set (not [0]). *)
Definition setCell (D : matrix T) (i j : nat) : Prop :=
  exists d, mget D i j = Some d /\ eqb d zero = false.

(** The distance cell [(i, j)] exists and is unset ([0]). *)
Definition unsetCell (D : matrix T) (i j : nat) : Prop :=
  exists d, mget D i j = Some d /\ eqb d zero = true.

(** [j0] is the cursor of row [i]: column 0 for row 0 and, for a later row,
    the first set cell of the row at or after the cursor of the row above,
    all cells in between being unset. *)
Fixpoint cursorAt (D : matrix T) (i j0 : nat) : Prop :=
  match i with
  | 0 => j0 = 0
  | S i' =>
      exists jPrev,
        cursorAt D i' jPrev /\ jPrev <= j0 /\ setCell D (S i') j0
        /\ forall k, jPrev <= k < j0 -> unsetCell D (S i') k
  end.

(** Cell [(i, j)] of a row [i >= 1] lies in the run of the row: the cells
    from the row's cursor up to [j] are all set. *)
Definition inRun (D : matrix T) (m i j : nat) : Prop :=
  1 <= i /\ j < m /\
  exists j0, cursorAt D i j0 /\ j0 <= j /\
             forall k, j0 <= k <= j -> setCell D i k.

(** The distance cell [(i, j)] is set; a cell outside the matrix is not. *)
Definition isSetCell (D : matrix T) (i j : nat) : bool :=
  match mget D i j with
  | Some d => negb (eqb d zero)
  | None => false
  end.

(** The coupling entry [(i, j)]. *)
Definition entry (F : matrix T) (i j : nat) : T :=
  match mget F i j with
  | Some x => x
  | None => zero
  end.

(** The values of which [minimum] for cell [(i, j)] is the least: the
    coupling at [(i-1, j-1)] when that distance cell is set and the sentinel
    otherwise, the coupling at [(i-1, j)] when set, the coupling at
    [(i, j-1)] when set. *)
Definition candidates (D F : matrix T) (i j : nat) : list T :=
  (if (0 <? i) && (0 <? j) && isSetCell D (i - 1) (j - 1)
   then entry F (i - 1) (j - 1) else Frechet.infinite)
  :: (if (0 <? i) && isSetCell D (i - 1) j then [entry F (i - 1) j] else [])
  ++ (if (0 <? j) && isSetCell D i (j - 1) then [entry F i (j - 1)] else []).

(** The state [(jMin, frechetMatrix)] of the row loop of
    [computeFrechetMatrix] after the rows [1], ..., [k]. *)
Definition sweptRows (D : matrix T) (n m k : nat) : outcome (nat * matrix T) :=
  d00 <- rd D 0 0 ;;
  forEach (Frechet.frechetRow D m) (seq 1 k) (0, mset (zeros n m) 0 0 d00).

(** *** The sweep as the code runs it, for the proofs *)

(** The column at which the sweep of row [i] starts, computed as the code
    does: [jMin] after the skip loop of that row ([0] before the first swept
    row). *)
Fixpoint rowCursor (D : matrix T) (i : nat) : outcome nat :=
  match i with
  | 0 => Ret 0
  | S i' =>
      jMin <- rowCursor D i' ;;
      row <- at_ D (S i') ;;
      Frechet.skipUnset (skipn jMin row) jMin
  end.

(** Cell [(i, j)] is walked by the sweep of row [i], started at the column
    [rowCursor] computes. *)
Definition walked (D : matrix T) (m i j : nat) : Prop :=
  1 <= i /\ j < m /\
  exists j0, rowCursor D i = Ret j0 /\ j0 <= j /\
             forall k, j0 <= k <= j -> setCell D i k.

(** Row [i], swept from column [j0], holds in [F] what the code computed
    for it. *)
Definition rowDone (D : matrix T) (m : nat) (F : matrix T) (i j0 : nat) : Prop :=
  forall j d,
    j0 <= j -> j < m -> (forall k, j0 <= k <= j -> setCell D i k) ->
    mget D i j = Some d ->
    exists minimum,
      Frechet.minimumAt D F i j = Ret minimum /\ mget F i j = Some (smax minimum d).

(** An outcome that is a return or undefined behaviour: nothing thrown, no
    fuel exhausted. *)
Definition plain {X : Type} (o : outcome X) : Prop :=
  match o with
  | Ret _ | Undefined => True
  | Throw _ | OutOfFuel => False
  end.

(** Cell [(i, j)] is written by [computeDistanceMatrix]: it is on the core
    diagonal, or on the main diagonal with a distance below [diagMax]. *)
Definition inBand (A B : trajectory T) (i j : nat) : bool :=
  (j =? coreJ (length A / length B) (length A mod length B) i)
  || ((i =? j) && (i <? length B) && ltb (dist A B i i) (bandMax A B)).
End Pure.

(** * Basic facts *)

Section BasicFacts.
Context {T : Type} `{Scalar T}.

Lemma bind_Ret_inv {A B : Type} (c : outcome A) (k : A -> outcome B) (b : B) :
  bind c k = Ret b -> exists a, c = Ret a /\ k a = Ret b.
Proof. destruct c; simpl; intros E; try discriminate. eauto. Qed.

Lemma forEach_app {S X : Type} (body : S -> X -> outcome S) (xs ys : list X) (s : S) :
  forEach body (xs ++ ys) s = (s' <- forEach body xs s ;; forEach body ys s').
Proof.
  revert s. induction xs as [|x xs IH]; intros s; simpl; [reflexivity|].
  destruct (body s x); simpl; auto.
Qed.

Lemma skipn_cons_nth {X : Type} (l : list X) (k : nat) (x : X) :
  nth_error l k = Some x -> skipn k l = x :: skipn (S k) l.
Proof.
  revert k. induction l as [|y l IH]; intros [|k] E; simpl in *; try discriminate.
  - injection E as ->. reflexivity.
  - apply IH, E.
Qed.

Lemma at_nth {X : Type} (v : list X) (i : nat) (d : X) :
  i < length v -> at_ v i = Ret (nth i v d).
Proof.
  intros Hi. unfold at_. rewrite (nth_error_nth' v d Hi). reflexivity.
Qed.

Lemma upd_length {X : Type} (l : list X) (k : nat) (f : X -> X) :
  length (upd l k f) = length l.
Proof.
  revert k. induction l as [|x l IH]; intros [|k]; simpl; auto.
Qed.

Lemma nth_error_upd_same {X : Type} (l : list X) (k : nat) (f : X -> X) (x : X) :
  nth_error l k = Some x -> nth_error (upd l k f) k = Some (f x).
Proof.
  revert k. induction l as [|y l IH]; intros [|k]; simpl; try discriminate.
  - intros E. injection E as ->. reflexivity.
  - apply IH.
Qed.

Lemma nth_error_upd_other {X : Type} (l : list X) (k k' : nat) (f : X -> X) :
  k <> k' -> nth_error (upd l k f) k' = nth_error l k'.
Proof.
  revert k k'. induction l as [|y l IH]; intros [|k] [|k'] Hne; simpl; auto;
    try congruence.
Qed.

Lemma mget_mset_same (M : matrix T) (i j : nat) (v w : T) :
  mget M i j = Some w -> mget (mset M i j v) i j = Some v.
Proof.
  unfold mget, mset. destruct (nth_error M i) as [row|] eqn:E; [|discriminate].
  intros Hj. rewrite (nth_error_upd_same _ _ _ E).
  apply (nth_error_upd_same _ _ (fun _ => v) Hj).
Qed.

Lemma mget_mset_other (M : matrix T) (i j i' j' : nat) (v : T) :
  (i, j) <> (i', j') -> mget (mset M i j v) i' j' = mget M i' j'.
Proof.
  intros Hne. unfold mget, mset.
  destruct (Nat.eq_dec i i') as [<-|Hi].
  - destruct (nth_error M i) as [row|] eqn:E.
    + rewrite (nth_error_upd_same _ _ _ E).
      apply nth_error_upd_other. congruence.
    + assert (E' : nth_error (upd M i (fun row => upd row j (fun _ => v))) i = None).
      { apply nth_error_None. rewrite upd_length. apply nth_error_None, E. }
      rewrite E'. reflexivity.
  - rewrite nth_error_upd_other by exact Hi. reflexivity.
Qed.

Lemma mset_shaped (n m : nat) (M : matrix T) (i j : nat) (v : T) :
  shaped n m M -> shaped n m (mset M i j v).
Proof.
  intros [Hn Hrows]. split.
  - unfold mset. rewrite upd_length. exact Hn.
  - unfold mset. clear Hn. revert i.
    induction Hrows as [|row M Hrow Hrows IH]; intros [|i]; simpl; constructor; auto.
    rewrite upd_length. exact Hrow.
Qed.

Lemma shaped_mget (n m : nat) (M : matrix T) (i j : nat) :
  shaped n m M -> i < n -> j < m -> exists w, mget M i j = Some w.
Proof.
  intros [Hn Hrows] Hi Hj. unfold mget.
  destruct (nth_error M i) as [row|] eqn:E.
  - assert (Hlen : length row = m).
    { rewrite Forall_forall in Hrows. apply Hrows. eapply nth_error_In, E. }
    destruct (nth_error row j) as [w|] eqn:E'; [eauto|].
    apply nth_error_None in E'. lia.
  - apply nth_error_None in E. lia.
Qed.

Lemma zeros_shaped (n m : nat) : shaped n m (zeros n m).
Proof.
  split.
  - apply repeat_length.
  - apply Forall_forall. intros row Hin. apply repeat_spec in Hin. subst row.
    apply repeat_length.
Qed.

Lemma mget_zeros (n m i j : nat) :
  i < n -> j < m -> mget (zeros n m) i j = Some zero.
Proof.
  intros Hi Hj. unfold mget, zeros.
  rewrite (nth_error_nth' _ (repeat zero m)) by (rewrite repeat_length; exact Hi).
  rewrite nth_repeat.
  rewrite (nth_error_nth' _ zero) by (rewrite repeat_length; exact Hj).
  rewrite nth_repeat. reflexivity.
Qed.

Lemma sumSquares_defined (a b : point T) (sum : T) :
  length a <= length b -> Frechet.sumSquares a b sum = Ret (sumSq a b sum).
Proof.
  revert b sum. induction a as [|x a IH]; intros [|y b] sum Hlen; simpl in *;
    try reflexivity; try lia.
  apply IH. lia.
Qed.

Lemma sumSquares_short (a b : point T) (sum : T) :
  length b < length a -> Frechet.sumSquares a b sum = Undefined.
Proof.
  revert b sum. induction a as [|x a IH]; intros [|y b] sum Hlen; simpl in *;
    try reflexivity; try lia.
  apply IH. lia.
Qed.

Lemma distanceMetric_defined (a b : point T) :
  length a <= length b -> Frechet.distanceMetric a b = Ret (euclid a b).
Proof.
  intros Hlen. unfold Frechet.distanceMetric.
  rewrite sumSquares_defined by exact Hlen. reflexivity.
Qed.

Lemma uniform_nth (dim : nat) (l : trajectory T) (i : nat) :
  uniform dim l -> i < length l -> length (nth i l []) = dim.
Proof.
  intros Hu Hi. unfold uniform in Hu. rewrite Forall_forall in Hu.
  apply Hu. apply nth_In. exact Hi.
Qed.
End BasicFacts.

(** * The banded distance matrix *)

Section BandFacts.
Context {T : Type} `{Scalar T}.
Variables (A B : trajectory T) (dim : nat).
Hypothesis HA : uniform dim A.
Hypothesis HB : uniform dim B.

Lemma dist_defined (i j : nat) :
  i < length A -> j < length B ->
  (p1 <- at_ A i ;; p2 <- at_ B j ;; Frechet.distanceMetric p1 p2)
  = Ret (dist A B i j).
Proof.
  intros Hi Hj.
  rewrite (at_nth A [] Hi). simpl.
  rewrite (at_nth B [] Hj). simpl.
  apply distanceMetric_defined.
  rewrite (uniform_nth HA Hi), (uniform_nth HB Hj). apply Nat.le_refl.
Qed.

Lemma diagStep_closed (jOf : nat -> nat) (D : matrix T) (dm : T) (i : nat) :
  shaped (length A) (length B) D ->
  i < length A -> jOf i < length B ->
  Frechet.diagStep A B jOf (D, dm) i
  = Ret (mset D i (jOf i) (dist A B i (jOf i)), smax (dist A B i (jOf i)) dm).
Proof.
  intros HD Hi Hj. unfold Frechet.diagStep.
  pose proof (dist_defined Hi Hj) as Hd.
  destruct (at_ A i) as [p1| | |]; simpl in Hd |- *; try discriminate.
  destruct (at_ B (jOf i)) as [p2| | |]; simpl in Hd |- *; try discriminate.
  rewrite Hd. simpl.
  destruct (shaped_mget HD Hi Hj) as [w Hw].
  unfold rd. rewrite (mget_mset_same _ _ _ _ Hw). reflexivity.
Qed.

Lemma coreFold_shaped (jOf : nat -> nat) (xs : list nat) (st : matrix T * T) (n m : nat) :
  shaped n m (fst st) -> shaped n m (fst (coreFold A B jOf xs st)).
Proof.
  revert st. induction xs as [|i xs IH]; intros st Hst; simpl; [exact Hst|].
  apply IH. simpl. apply mset_shaped, Hst.
Qed.

Lemma core_loop (jOf : nat -> nat) (xs : list nat) (st : matrix T * T) :
  shaped (length A) (length B) (fst st) ->
  (forall i, In i xs -> i < length A /\ jOf i < length B) ->
  forEach (Frechet.diagStep A B jOf) xs st = Ret (coreFold A B jOf xs st).
Proof.
  revert st. induction xs as [|i xs IH]; intros [D dm] HD Hin;
    cbn [forEach]; [reflexivity|].
  destruct (Hin i (or_introl eq_refl)) as [Hi Hj]. simpl in HD.
  rewrite (diagStep_closed jOf dm HD Hi Hj). cbn [bind].
  apply IH.
  - simpl. apply mset_shaped, HD.
  - intros k Hk. apply Hin. right; exact Hk.
Qed.

(** The upper-right pass never enters its loop: each row starts at column
    [i], which the previous row's [jMin] cannot exceed. *)
Lemma upperWhile_skip (m : nat) (dm : T) (fuel jMin i j : nat) (d : T) (D : matrix T) :
  jMin <= j -> Frechet.upperWhile A B m dm fuel jMin i j d D = Ret (j, D).
Proof.
  intros Hle. assert (E : (j <? jMin) = false) by (apply Nat.ltb_ge; exact Hle).
  destruct fuel; simpl; rewrite E, andb_false_r; reflexivity.
Qed.

Lemma upper_pass (m : nat) (dm : T) (fuel : nat) (uninit : T) (D : matrix T) :
  forall len k jMin, jMin <= k ->
    exists jMin', forEach (Frechet.upperRow A B m dm fuel uninit) (seq k len) (jMin, D)
                  = Ret (jMin', D).
Proof.
  induction len as [|len IH]; intros k jMin Hle; cbn [seq forEach].
  - eauto.
  - unfold Frechet.upperRow at 1.
    rewrite upperWhile_skip by exact Hle. cbn [bind].
    apply IH. lia.
Qed.

(** The lower-left pass runs each [do ... while] body once, on the cell
    [(j, j)]. *)
Lemma lowerDoWhile_once (n : nat) (dm : T) (fuel iMin j : nat) (D : matrix T) :
  iMin <= j -> j < length A -> j < length B ->
  Frechet.lowerDoWhile A B n dm fuel iMin j j D
  = Ret (if ltb (dist A B j j) dm
         then (S j, mset D j j (dist A B j j)) else (j, D)).
Proof.
  intros Hle Hi Hj.
  assert (Hbody : Frechet.lowerBody A B dm j j D
                  = if ltb (dist A B j j) dm
                    then Ret (S j, dist A B j j, mset D j j (dist A B j j))
                    else Ret (j, dist A B j j, D)).
  { unfold Frechet.lowerBody. pose proof (dist_defined Hi Hj) as Hd.
    destruct (at_ A j) as [p1| | |]; simpl in Hd |- *; try discriminate.
    destruct (at_ B j) as [p2| | |]; simpl in Hd |- *; try discriminate.
    rewrite Hd. reflexivity. }
  destruct fuel; simpl; rewrite Hbody;
    destruct (ltb (dist A B j j) dm).
  - assert (E : (S j <? iMin) = false) by (apply Nat.ltb_ge; lia).
    rewrite E, andb_false_r. reflexivity.
  - assert (E : (j <? iMin) = false) by (apply Nat.ltb_ge; lia).
    rewrite E, andb_false_r. reflexivity.
  - assert (E : (S j <? iMin) = false) by (apply Nat.ltb_ge; lia).
    rewrite E, andb_false_r. reflexivity.
  - assert (E : (j <? iMin) = false) by (apply Nat.ltb_ge; lia).
    rewrite E, andb_false_r. reflexivity.
Qed.

Lemma lower_pass (n : nat) (dm : T) (fuel : nat) :
  forall len k iMin D, iMin <= k -> k + len <= length A -> k + len <= length B ->
    exists iMin', forEach (Frechet.lowerCol A B n dm fuel) (seq k len) (iMin, D)
                  = Ret (iMin', mainDiagFold A B dm (seq k len) D).
Proof.
  induction len as [|len IH]; intros k iMin D Hle HlA HlB; cbn [seq forEach].
  - simpl. eauto.
  - unfold Frechet.lowerCol at 1.
    rewrite (lowerDoWhile_once n dm fuel D Hle) by lia.
    unfold mainDiagFold. cbn [bind fold_left].
    destruct (ltb (dist A B k k) dm); apply IH; lia.
Qed.
End BandFacts.

(** * Index arithmetic of the core diagonal *)

Section CoreArith.
Variables (n m : nat).
Hypothesis Hm : 1 <= m.
Hypothesis Hnm : m <= n.

Let q := n / m.
Let r := n mod m.

Lemma quotient_pos : 1 <= q.
Proof.
  unfold q. apply Nat.div_le_lower_bound; lia.
Qed.

Lemma split_length : n = m * q + r.
Proof. unfold q, r. apply Nat.div_mod_eq. Qed.

Lemma remainder_lt : r < m.
Proof. unfold r. apply Nat.mod_upper_bound. lia. Qed.

Lemma core_turn_lt : r * (q + 1) < n.
Proof.
  pose proof quotient_pos. pose proof split_length. pose proof remainder_lt.
  nia.
Qed.

Lemma core_head_in_range (i : nat) : i <= r * (q + 1) -> i / (q + 1) < m.
Proof.
  intros Hi. pose proof remainder_lt.
  apply Nat.Div0.div_lt_upper_bound. nia.
Qed.

Lemma core_tail_in_range (i : nat) : r * (q + 1) <= i -> i < n -> (i - r) / q < m.
Proof.
  intros Hi Hin. pose proof quotient_pos. pose proof split_length.
  apply Nat.Div0.div_lt_upper_bound. nia.
Qed.

(** Both loops agree on the turning row [r * (q + 1)]. *)
Lemma core_turn_agree : (r * (q + 1) - r) / q = r * (q + 1) / (q + 1).
Proof.
  pose proof quotient_pos.
  rewrite Nat.div_mul by lia.
  replace (r * (q + 1) - r) with (r * q) by nia.
  apply Nat.div_mul. lia.
Qed.

Lemma coreJ_in_range (i : nat) : i < n -> coreJ q r i < m.
Proof.
  intros Hi. unfold coreJ. destruct (Nat.leb_spec i (r * (q + 1))).
  - apply core_head_in_range. assumption.
  - apply core_tail_in_range; lia.
Qed.
End CoreArith.

Section BandClosedForm.
Context {T : Type} `{Scalar T}.
Variables (A B : trajectory T) (dim : nat).
Hypothesis HA : uniform dim A.
Hypothesis HB : uniform dim B.

(** When the first trajectory is at least as long as the second, which is
    not empty, the call returns the closed form, whatever the fuel and the
    indeterminate [d]. *)
Lemma computeDistanceMatrix_ordered (fuel : nat) (uninit : T) :
  1 <= length B -> length B <= length A ->
  Frechet.computeDistanceMatrix fuel uninit A B
  = Ret (A, B, bandMatrix A B, bandMax A B).
Proof.
  intros Hm Hnm. unfold Frechet.computeDistanceMatrix.
  assert (E1 : (length A <? length B) = false) by (apply Nat.ltb_ge; exact Hnm).
  assert (E2 : (length B =? 0) = false) by (apply Nat.eqb_neq; lia).
  rewrite E1, E2.
  set (n := length A). set (m := length B).
  set (q := n / m). set (r := n mod m).
  rewrite (core_loop HA HB).
  2:{ simpl. apply zeros_shaped. }
  2:{ intros i Hi. apply in_seq in Hi.
      pose proof (core_turn_lt Hm Hnm) as Hturn. subst r q m n.
      split; [lia|]. apply (core_head_in_range Hm Hnm). lia. }
  cbn [bind].
  destruct (coreFold A B (fun i => i / (q + 1)) (seq 0 (r * (q + 1) + 1))
                     (zeros n m, zero)) as [D1 dm1] eqn:Ecore1.
  assert (HD1 : shaped n m D1).
  { change D1 with (fst (D1, dm1)). rewrite <- Ecore1.
    apply coreFold_shaped. simpl. apply zeros_shaped. }
  rewrite (core_loop HA HB).
  2:{ exact HD1. }
  2:{ intros i Hi. apply in_seq in Hi.
      pose proof (core_turn_lt Hm Hnm) as Hturn. clear Ecore1. subst r q m n.
      split; [lia|]. apply (core_tail_in_range Hm Hnm); lia. }
  cbn [bind].
  destruct (coreFold A B (fun i => (i - r) / q)
                     (seq (r * (q + 1)) (n - r * (q + 1))) (D1, dm1))
    as [D2 dm2] eqn:Ecore2.
  destruct (upper_pass A B m dm2 fuel uninit D2 n (le_n 0))
    as [jMin' Eup].
  rewrite Eup. cbn [bind].
  assert (HlA : 0 + m <= length A) by (unfold m; simpl; exact Hnm).
  assert (HlB : 0 + m <= length B) by (unfold m; simpl; apply Nat.le_refl).
  destruct (lower_pass HA HB n dm2 fuel m (k:=0) (iMin:=0) D2 (le_n 0) HlA HlB)
    as [iMin' Elow].
  rewrite Elow. cbn [bind].
  unfold bandMatrix, bandMax, coreState. fold n m q r.
  rewrite Ecore1, Ecore2. reflexivity.
Qed.
End BandClosedForm.

Section SwapFacts.
Context {T : Type} `{Scalar T}.

(** A call with the shorter trajectory first continues exactly as the call
    with the arguments exchanged. *)
Lemma computeDistanceMatrix_swap (fuel : nat) (uninit : T) (l1 l2 : trajectory T) :
  length l1 < length l2 ->
  Frechet.computeDistanceMatrix fuel uninit l1 l2
  = Frechet.computeDistanceMatrix fuel uninit l2 l1.
Proof.
  intros Hlt. unfold Frechet.computeDistanceMatrix.
  assert (E1 : (length l1 <? length l2) = true) by (apply Nat.ltb_lt; exact Hlt).
  assert (E2 : (length l2 <? length l1) = false) by (apply Nat.ltb_ge; lia).
  rewrite E1, E2. reflexivity.
Qed.

Lemma computeFrechetMatrix_swap (fuel : nat) (uninit : T) (l1 l2 : trajectory T) :
  length l1 < length l2 ->
  Frechet.computeFrechetMatrix fuel uninit l1 l2
  = Frechet.computeFrechetMatrix fuel uninit l2 l1.
Proof.
  intros Hlt. unfold Frechet.computeFrechetMatrix.
  rewrite computeDistanceMatrix_swap by exact Hlt. reflexivity.
Qed.

Lemma frechetDistance_swap (fuel : nat) (uninit : T) (l1 l2 : trajectory T) :
  length l1 < length l2 ->
  Frechet.frechetDistance fuel uninit l1 l2
  = Frechet.frechetDistance fuel uninit l2 l1.
Proof.
  intros Hlt. unfold Frechet.frechetDistance.
  rewrite computeFrechetMatrix_swap by exact Hlt. reflexivity.
Qed.
End SwapFacts.

(** * The scalar order *)

Section OrderFacts.
Context {T : Type} `{ScalarLaws T}.

Lemma ltb_asym (x y : T) : ltb x y = true -> ltb y x = false.
Proof.
  intros Hxy. destruct (ltb y x) eqn:Hyx; [|reflexivity].
  pose proof (ltb_trans _ _ _ Hxy Hyx) as Hxx.
  rewrite ltb_irrefl in Hxx. discriminate.
Qed.

Lemma sle_refl (x : T) : sle x x.
Proof. apply ltb_irrefl. Qed.

Lemma sle_trans (x y z : T) : sle x y -> sle y z -> sle x z.
Proof.
  unfold sle. intros Hxy Hyz.
  destruct (ltb z x) eqn:Hzx; [|reflexivity].
  destruct (ltb x y) eqn:Hlt.
  - rewrite (ltb_trans _ _ _ Hzx Hlt) in Hyz. discriminate.
  - rewrite (ltb_connex _ _ Hlt Hxy) in Hzx. congruence.
Qed.

Lemma sle_antisym (x y : T) : sle x y -> sle y x -> x = y.
Proof. unfold sle. intros Hxy Hyx. apply ltb_connex; assumption. Qed.

Lemma ltb_sle (x y : T) : ltb x y = true -> sle x y.
Proof. apply ltb_asym. Qed.

Lemma smax_cases (a b : T) :
  (smax a b = a \/ smax a b = b) /\ sle a (smax a b) /\ sle b (smax a b).
Proof.
  unfold smax. destruct (ltb a b) eqn:E.
  - split; [right; reflexivity|]. split; [apply ltb_sle, E | apply sle_refl].
  - split; [left; reflexivity|]. split; [apply sle_refl | exact E].
Qed.

Lemma smin_cases (a b : T) :
  (smin a b = a \/ smin a b = b) /\ sle (smin a b) a /\ sle (smin a b) b.
Proof.
  unfold smin. destruct (ltb b a) eqn:E.
  - split; [right; reflexivity|]. split; [apply ltb_sle, E | apply sle_refl].
  - split; [left; reflexivity|]. split; [apply sle_refl | exact E].
Qed.

Lemma IsMax_unique (v w : T) (l : list T) : IsMax v l -> IsMax w l -> v = w.
Proof.
  intros [Hv Hv'] [Hw Hw']. apply sle_antisym; auto.
Qed.

Lemma IsMin_unique (v w : T) (l : list T) : IsMin v l -> IsMin w l -> v = w.
Proof.
  intros [Hv Hv'] [Hw Hw']. apply sle_antisym; auto.
Qed.

(** A running [std::max] over [f x], [x] in [xs], from [acc]. *)
Lemma fold_smax_spec {X : Type} (f : X -> T) (xs : list X) (acc : T) :
  let v := fold_left (fun acc x => smax (f x) acc) xs acc in
  sle acc v /\ (forall x, In x xs -> sle (f x) v)
  /\ (v = acc \/ exists x, In x xs /\ v = f x).
Proof.
  revert acc. induction xs as [|x xs IH]; intros acc; simpl.
  - split; [apply sle_refl|]. split; [intros ? []|left; reflexivity].
  - destruct (IH (smax (f x) acc)) as (Hacc & Hall & Hatt).
    destruct (smax_cases (f x) acc) as (Hcase & Hfx & Hacc').
    split; [eapply sle_trans; eassumption|]. split.
    + intros y [<-|Hy]; [eapply sle_trans; eassumption | apply Hall, Hy].
    + destruct Hatt as [E|(y & Hy & E)].
      * destruct Hcase as [E'|E'].
        -- right. exists x. split; [left; reflexivity | congruence].
        -- left. congruence.
      * right. exists y. split; [right; exact Hy | exact E].
Qed.

Lemma fold_smin_spec {X : Type} (f : X -> T) (xs : list X) (acc : T) :
  let v := fold_left (fun acc x => smin (f x) acc) xs acc in
  sle v acc /\ (forall x, In x xs -> sle v (f x))
  /\ (v = acc \/ exists x, In x xs /\ v = f x).
Proof.
  revert acc. induction xs as [|x xs IH]; intros acc; simpl.
  - split; [apply sle_refl|]. split; [intros ? []|left; reflexivity].
  - destruct (IH (smin (f x) acc)) as (Hacc & Hall & Hatt).
    destruct (smin_cases (f x) acc) as (Hcase & Hfx & Hacc').
    split; [eapply sle_trans; eassumption|]. split.
    + intros y [<-|Hy]; [eapply sle_trans; eassumption | apply Hall, Hy].
    + destruct Hatt as [E|(y & Hy & E)].
      * destruct Hcase as [E'|E'].
        -- right. exists x. split; [left; reflexivity | congruence].
        -- left. congruence.
      * right. exists y. split; [right; exact Hy | exact E].
Qed.

Lemma maxOf_IsMax (l : list T) : l <> [] -> IsMax (maxOf l) l.
Proof.
  destruct l as [|x l]; [congruence|]. intros _. unfold maxOf.
  destruct (fold_smax_spec (fun y => y) l x) as (Hacc & Hall & Hatt).
  split.
  - destruct Hatt as [E|(y & Hy & E)]; [left; symmetry; exact E|].
    right. rewrite E. exact Hy.
  - intros y [<-|Hy]; [exact Hacc | apply Hall, Hy].
Qed.

Lemma minOf_IsMin (l : list T) : l <> [] -> IsMin (minOf l) l.
Proof.
  destruct l as [|x l]; [congruence|]. intros _. unfold minOf.
  destruct (fold_smin_spec (fun y => y) l x) as (Hacc & Hall & Hatt).
  split.
  - destruct Hatt as [E|(y & Hy & E)]; [left; symmetry; exact E|].
    right. rewrite E. exact Hy.
  - intros y [<-|Hy]; [exact Hacc | apply Hall, Hy].
Qed.

Lemma IsMin_perm (v : T) (l l' : list T) : Permutation l l' -> IsMin v l -> IsMin v l'.
Proof.
  intros Hp [Hin Hall]. split.
  - eapply Permutation_in; eassumption.
  - intros x Hx. apply Hall. eapply Permutation_in; [apply Permutation_sym|]; eassumption.
Qed.

Lemma sumSq_nonneg (a b : point T) (sum : T) :
  sle zero sum -> sle zero (sumSq a b sum).
Proof.
  revert b sum. induction a as [|x a IH]; intros [|y b] sum Hs; simpl; auto.
  apply IH. apply add_nonneg; [exact Hs | apply sq_nonneg].
Qed.

Lemma sqDist_nonneg (a b : point T) : sle zero (sqDist a b).
Proof. apply sumSq_nonneg, sle_refl. Qed.

Lemma euclid_nonneg (a b : point T) : sle zero (euclid a b).
Proof. apply sqrt_nonneg. Qed.
End OrderFacts.

(** * Contents of the banded matrix *)

Section BandCells.
Context {T : Type} `{Scalar T}.
Variables (A B : trajectory T).

(** A cell that holds its distance keeps it under any write of a distance. *)
Lemma mset_dist_preserves (D : matrix T) (i j i' j' : nat) :
  mget D i j = Some (dist A B i j) ->
  mget (mset D i' j' (dist A B i' j')) i j = Some (dist A B i j).
Proof.
  intros Hcell.
  destruct (Nat.eq_dec i' i) as [->|Hi]; [destruct (Nat.eq_dec j' j) as [->|Hj]|].
  - eapply mget_mset_same, Hcell.
  - rewrite mget_mset_other by congruence. exact Hcell.
  - rewrite mget_mset_other by congruence. exact Hcell.
Qed.

Lemma coreFold_preserves (jOf : nat -> nat) (xs : list nat) (st : matrix T * T) (i j : nat) :
  mget (fst st) i j = Some (dist A B i j) ->
  mget (fst (coreFold A B jOf xs st)) i j = Some (dist A B i j).
Proof.
  revert st. induction xs as [|k xs IH]; intros st Hcell; simpl; [exact Hcell|].
  apply IH. simpl. apply mset_dist_preserves, Hcell.
Qed.

Lemma coreFold_writes (jOf : nat -> nat) (n m : nat) (xs : list nat)
      (st : matrix T * T) (i : nat) :
  shaped n m (fst st) ->
  (forall k, In k xs -> k < n /\ jOf k < m) ->
  In i xs ->
  mget (fst (coreFold A B jOf xs st)) i (jOf i) = Some (dist A B i (jOf i)).
Proof.
  revert st. induction xs as [|k xs IH]; intros st Hst Hrange Hin; [destruct Hin|].
  simpl. destruct (Hrange k (or_introl eq_refl)) as [Hk Hjk].
  destruct Hin as [->|Hin].
  - apply coreFold_preserves. simpl.
    destruct (shaped_mget Hst Hk Hjk) as [w Hw].
    eapply mget_mset_same, Hw.
  - apply IH; [simpl; apply mset_shaped, Hst | | exact Hin].
    intros k' Hk'. apply Hrange. right; exact Hk'.
Qed.

Lemma mainDiagFold_preserves (dm : T) (xs : list nat) (D : matrix T) (i j : nat) :
  mget D i j = Some (dist A B i j) ->
  mget (mainDiagFold A B dm xs D) i j = Some (dist A B i j).
Proof.
  revert D. induction xs as [|k xs IH]; intros D Hcell; simpl; [exact Hcell|].
  apply IH. destruct (ltb (dist A B k k) dm); [|exact Hcell].
  apply mset_dist_preserves, Hcell.
Qed.

Lemma coreFold_ext_in (f g : nat -> nat) (xs : list nat) (st : matrix T * T) :
  (forall i, In i xs -> f i = g i) ->
  coreFold A B f xs st = coreFold A B g xs st.
Proof.
  revert st. induction xs as [|k xs IH]; intros st E; simpl; [reflexivity|].
  rewrite (E k) by (left; reflexivity). apply IH.
  intros i Hi. apply E. right; exact Hi.
Qed.

Lemma coreFold_app (f : nat -> nat) (xs ys : list nat) (st : matrix T * T) :
  coreFold A B f (xs ++ ys) st = coreFold A B f ys (coreFold A B f xs st).
Proof. unfold coreFold. apply fold_left_app. Qed.

Lemma coreFold_snd (f : nat -> nat) (xs : list nat) (st : matrix T * T) :
  snd (coreFold A B f xs st)
  = fold_left (fun acc i => smax (dist A B i (f i)) acc) xs (snd st).
Proof.
  revert st. induction xs as [|k xs IH]; intros st; simpl; [reflexivity|].
  rewrite IH. reflexivity.
Qed.

Lemma coreRows_In (n m i : nat) : 1 <= m -> m <= n -> (In i (coreRows n m) <-> i < n).
Proof.
  intros Hm Hnm. unfold coreRows. pose proof (core_turn_lt Hm Hnm) as Hturn.
  rewrite in_app_iff, !in_seq. lia.
Qed.

Lemma coreState_coreJ :
  1 <= length B -> length B <= length A ->
  coreState A B
  = coreFold A B (coreJ (length A / length B) (length A mod length B))
             (coreRows (length A) (length B)) (zeros (length A) (length B), zero).
Proof.
  intros Hm Hnm. unfold coreState, coreRows. rewrite coreFold_app.
  set (q := length A / length B). set (r := length A mod length B).
  rewrite (coreFold_ext_in (fun i => i / (q + 1)) (coreJ q r)).
  2:{ intros i Hi. apply in_seq in Hi. unfold coreJ.
      destruct (Nat.leb_spec i (r * (q + 1))); [reflexivity | lia]. }
  apply coreFold_ext_in.
  intros i Hi. apply in_seq in Hi. unfold coreJ.
  destruct (Nat.leb_spec i (r * (q + 1))); [|reflexivity].
  assert (i = r * (q + 1)) as -> by lia.
  apply (core_turn_agree Hm Hnm).
Qed.
End BandCells.

Section CoreDiagonal.
Context {T : Type} `{ScalarLaws T}.

(** C3.  For non-empty trajectories of one point dimension, with [A] the
    longer and [B] the shorter after the internal swap, [n] and [m] their
    lengths, [q = n / m] and [r = n mod m]: [computeDistanceMatrix] returns,
    every core-diagonal cell [(i, j)] with [j = i / (q+1)] for
    [i <= r*(q+1)] and [j = (i-r) / q] beyond holds the Euclidean distance
    between point [i] of [A] and point [j] of [B], and the returned
    [diagMax] is the greatest of these [n] distances. *)
Theorem core_diagonal (fuel : nat) (uninit : T) (l1 l2 : trajectory T) (dim : nat) :
  l1 <> [] -> l2 <> [] -> uniform dim l1 -> uniform dim l2 ->
  let A := if length l1 <? length l2 then l2 else l1 in
  let B := if length l1 <? length l2 then l1 else l2 in
  let n := length A in
  let m := length B in
  let q := n / m in
  let r := n mod m in
  let core i := euclid (nth i A []) (nth (coreJ q r i) B []) in
  exists D diagMax,
    Frechet.computeDistanceMatrix fuel uninit l1 l2 = Ret (A, B, D, diagMax)
    /\ (forall i, i < n -> mget D i (coreJ q r i) = Some (core i))
    /\ (forall i, i < n -> sle (core i) diagMax)
    /\ (exists i, i < n /\ diagMax = core i).
Proof.
  intros Hl1 Hl2 Hu1 Hu2 A B n m q r core.
  assert (Hcall : Frechet.computeDistanceMatrix fuel uninit l1 l2
                  = Frechet.computeDistanceMatrix fuel uninit A B).
  { unfold A, B. destruct (Nat.ltb_spec (length l1) (length l2)) as [Hlt|Hge].
    - apply computeDistanceMatrix_swap, Hlt.
    - reflexivity. }
  assert (HuA : uniform dim A) by (unfold A; destruct (length l1 <? length l2); assumption).
  assert (HuB : uniform dim B) by (unfold B; destruct (length l1 <? length l2); assumption).
  assert (Hm : 1 <= m).
  { unfold m, B. destruct (length l1 <? length l2);
      [destruct l1 | destruct l2]; simpl; try congruence; lia. }
  assert (Hnm : m <= n).
  { unfold n, m, A, B. destruct (Nat.ltb_spec (length l1) (length l2)); lia. }
  exists (bandMatrix A B), (bandMax A B).
  split; [rewrite Hcall; apply (computeDistanceMatrix_ordered HuA HuB); assumption|].
  assert (Hmax : bandMax A B
                 = fold_left (fun acc i => smax (core i) acc) (coreRows n m) zero).
  { unfold bandMax. rewrite (coreState_coreJ A B Hm Hnm), coreFold_snd. reflexivity. }
  destruct (fold_smax_spec core (coreRows n m) zero) as (Hzero & Hall & Hatt).
  rewrite <- Hmax in Hzero, Hall, Hatt.
  split; [|split].
  - intros i Hi. unfold bandMatrix. apply mainDiagFold_preserves.
    rewrite (coreState_coreJ A B Hm Hnm).
    apply (coreFold_writes A B (coreJ q r) (n:=n) (m:=m)).
    + simpl. apply zeros_shaped.
    + intros k Hk. apply (coreRows_In k Hm Hnm) in Hk.
      split; [exact Hk | apply (coreJ_in_range Hm Hnm), Hk].
    + apply (coreRows_In i Hm Hnm), Hi.
  - intros i Hi. apply Hall. apply (coreRows_In i Hm Hnm), Hi.
  - destruct Hatt as [E|(i & Hi & E)].
    + exists 0. split; [lia|]. rewrite E.
      apply sle_antisym; [apply euclid_nonneg|].
      rewrite <- E. apply Hall. apply (coreRows_In 0 Hm Hnm). lia.
    + exists i. split; [apply (coreRows_In i Hm Hnm), Hi | exact E].
Qed.
End CoreDiagonal.

(** * Exact integers satisfy the scalar laws *)

#[export] Instance Z_ScalarLaws : ScalarLaws Z.
Proof.
  constructor; simpl.
  - apply Z.ltb_irrefl.
  - intros x y z Hxy Hyz. apply Z.ltb_lt in Hxy, Hyz. apply Z.ltb_lt. lia.
  - intros x y Hxy Hyx. apply Z.ltb_ge in Hxy, Hyx. lia.
  - intros x y. rewrite Z.leb_antisym. reflexivity.
  - apply Z.eqb_eq.
  - apply Z.sub_diag.
  - reflexivity.
  - reflexivity.
  - intros x. apply Z.ltb_ge. nia.
  - intros x y Hx Hy. apply Z.ltb_ge in Hx, Hy. apply Z.ltb_ge. lia.
  - intros x y. ring.
  - reflexivity.
  - intros x. apply Z.ltb_ge. apply Z.sqrt_nonneg.
Qed.

Lemma core_diagonal_witness :
  exists D diagMax,
    Frechet.computeDistanceMatrix 0 0%Z [[0%Z]; [3%Z]] [[1%Z]; [2%Z]; [10%Z]]
    = Ret ([[1%Z]; [2%Z]; [10%Z]], [[0%Z]; [3%Z]], D, diagMax)
    /\ mget D 2 1 = Some 7%Z.
Proof.
  assert (Hu1 : uniform 1 [[0%Z]; [3%Z]]) by (repeat constructor).
  assert (Hu2 : uniform 1 [[1%Z]; [2%Z]; [10%Z]]) by (repeat constructor).
  destruct (@core_diagonal Z _ _ 0 0%Z [[0%Z]; [3%Z]] [[1%Z]; [2%Z]; [10%Z]] 1
              ltac:(discriminate) ltac:(discriminate) Hu1 Hu2)
    as (D & diagMax & Hcall & Hcells & _).
  exists D, diagMax. split; [exact Hcall|].
  apply (Hcells 2). simpl. lia.
Defined.

(** * The swap of the two arguments *)

Section SwapEffect.
Context {T : Type} `{Scalar T}.

Lemma computeFrechetMatrix_unfold (fuel : nat) (uninit : T) (l1 l2 : trajectory T) :
  Frechet.computeFrechetMatrix fuel uninit l1 l2
  = ('(A, B, D, _) <- Frechet.computeDistanceMatrix fuel uninit l1 l2 ;;
     F <- couplingFrom D (length A) (length B) ;;
     Ret (A, B, F)).
Proof.
  unfold Frechet.computeFrechetMatrix, couplingFrom.
  destruct (Frechet.computeDistanceMatrix fuel uninit l1 l2)
    as [[[[A B] D] dm]| | |]; simpl; try reflexivity.
  destruct (rd D 0 0) as [d00| | |]; simpl; try reflexivity.
  destruct (forEach _ _ _) as [[jMin F]| | |]; reflexivity.
Qed.

Lemma computeDistanceMatrix_args (fuel : nat) (uninit : T) (l1 l2 A B : trajectory T)
      (D : matrix T) (dm : T) :
  Frechet.computeDistanceMatrix fuel uninit l1 l2 = Ret (A, B, D, dm) ->
  (A, B) = if length l1 <? length l2 then (l2, l1) else (l1, l2).
Proof.
  unfold Frechet.computeDistanceMatrix.
  destruct (length l1 <? length l2).
  - destruct (length l1 =? 0); [discriminate|].
    intros E.
    apply bind_Ret_inv in E. destruct E as ([D1 dm1] & _ & E).
    apply bind_Ret_inv in E. destruct E as ([D2 dm2] & _ & E).
    apply bind_Ret_inv in E. destruct E as ([j3 D3] & _ & E).
    apply bind_Ret_inv in E. destruct E as ([i4 D4] & _ & E).
    congruence.
  - destruct (length l2 =? 0); [discriminate|].
    intros E.
    apply bind_Ret_inv in E. destruct E as ([D1 dm1] & _ & E).
    apply bind_Ret_inv in E. destruct E as ([D2 dm2] & _ & E).
    apply bind_Ret_inv in E. destruct E as ([j3 D3] & _ & E).
    apply bind_Ret_inv in E. destruct E as ([i4 D4] & _ & E).
    congruence.
Qed.



End SwapEffect.


(** * Swap invariance of the returned distance *)

Section SwapInvariance.
Context {T : Type} `{ScalarLaws T}.

Lemma sumSq_sym (a b : point T) (sum : T) : sumSq a b sum = sumSq b a sum.
Proof.
  revert b sum. induction a as [|x a IH]; intros [|y b] sum; simpl; try reflexivity.
  rewrite (sq_sub_swap x y). apply IH.
Qed.






Lemma frechetDistance_from_band (fuel : nat) (uninit : T) (A B : trajectory T) (dim : nat) :
  uniform dim A -> uniform dim B -> 1 <= length B -> length B <= length A ->
  returned (Frechet.frechetDistance fuel uninit A B)
  = (F <- couplingFrom (bandMatrix A B) (length A) (length B) ;;
     rd F (length A - 1) (length B - 1)).
Proof.
  intros HA HB Hm Hnm. unfold returned, Frechet.frechetDistance.
  rewrite computeFrechetMatrix_unfold.
  rewrite (computeDistanceMatrix_ordered HA HB fuel uninit Hm Hnm). simpl.
  destruct (couplingFrom _ _ _) as [F| | |]; simpl; try reflexivity.
  destruct (rd F _ _); reflexivity.
Qed.

End SwapInvariance.


(** * The directed Hausdorff distance *)

Section HausdorffFacts.
Context {T : Type} `{ScalarLaws T}.

Lemma map_nth_seq {X : Type} (l : list X) (d : X) :
  map (fun k => nth k l d) (seq 0 (length l)) = l.
Proof.
  induction l as [|x l IH]; simpl; [reflexivity|].
  f_equal. rewrite <- seq_shift, map_map. exact IH.
Qed.

(** Reading a vector through a shuffled index vector visits its elements
    in some order. *)
Lemma shuffled_reads {X : Type} (l : list X) (d : X) (indices : list nat) :
  Permutation indices (seq 0 (length l)) ->
  Permutation (map (fun k => nth k l d) indices) l.
Proof.
  intros Hp.
  apply (Permutation_trans (Permutation_map (fun k => nth k l d) Hp)).
  rewrite map_nth_seq. apply Permutation_refl.
Qed.

Lemma shuffled_in_range {X : Type} (l : list X) (indices : list nat) (k : nat) :
  Permutation indices (seq 0 (length l)) -> In k indices -> k < length l.
Proof.
  intros Hp Hk. apply (Permutation_in _ Hp) in Hk. apply in_seq in Hk. lia.
Qed.

Lemma cMin_fold (vals : list T) (c : T) :
  IsMin (fold_left cMinStep vals c) (c :: vals).
Proof.
  revert c. induction vals as [|d vals IH]; intros c; cbn [fold_left].
  - split; [left; reflexivity|]. intros x [<-|[]]. apply sle_refl.
  - destruct (IH (cMinStep c d)) as [Hin Hall].
    assert (Hstep : (cMinStep c d = c \/ cMinStep c d = d)
                    /\ sle (cMinStep c d) c /\ sle (cMinStep c d) d).
    { unfold cMinStep. destruct (ltb d c) eqn:E.
      - split; [right; reflexivity|]. split; [apply ltb_sle, E | apply sle_refl].
      - split; [left; reflexivity|]. split; [apply sle_refl | exact E]. }
    destruct Hstep as (Hcase & Hc & Hd).
    assert (Hhead : sle (fold_left cMinStep vals (cMinStep c d)) (cMinStep c d))
      by (apply Hall; left; reflexivity).
    split.
    + destruct Hin as [E|Hin]; [|right; right; exact Hin].
      rewrite <- E. destruct Hcase as [->| ->]; [left | right; left]; reflexivity.
    + intros x [<-|[<-|Hx]].
      * eapply sle_trans; eassumption.
      * eapply sle_trans; eassumption.
      * apply Hall. right; exact Hx.
Qed.

Lemma hausdorffDistance_nonempty (indicesA indicesB : list nat) (a b : trajectory T) :
  a <> [] -> b <> [] ->
  hausdorffDistance indicesA indicesB a b
  = (cMax <- forEach (outerStep a b indicesB) indicesA zero ;; Ret (sqrt cMax)).
Proof.
  intros Ha Hb. unfold hausdorffDistance.
  destruct a; [congruence|]. destruct b; [congruence|]. reflexivity.
Qed.

Lemma nonempty_length {X : Type} (l : list X) : l <> [] -> 0 < length l.
Proof. destruct l; [congruence | simpl; lia]. Qed.

Section OnePair.
Variables (a b : trajectory T) (dim : nat).
Hypothesis Ha : uniform dim a.
Hypothesis Hb : uniform dim b.

Lemma squared_distance_defined (indexA indexB : nat) :
  indexA < length a -> indexB < length b ->
  (pa <- at_ a indexA ;; pb <- at_ b indexB ;; Frechet.sumSquares pa pb zero)
  = Ret (sqDist (nth indexA a []) (nth indexB b [])).
Proof.
  intros HiA HiB.
  rewrite (at_nth a [] HiA). simpl. rewrite (at_nth b [] HiB). simpl.
  apply sumSquares_defined.
  rewrite (uniform_nth Ha HiA), (uniform_nth Hb HiB). apply Nat.le_refl.
Qed.

Lemma innerLoop_spec (indexA : nat) (cMax : T) (indicesB : list nat) :
  indexA < length a -> (forall k, In k indicesB -> k < length b) ->
  forall cMin,
    (innerLoop a b indexA indicesB cMax cMin
     = Ret (fold_left cMinStep (visited a b indexA indicesB) cMin, false)
     /\ forall d, In d (visited a b indexA indicesB) -> ltb d cMax = false)
    \/ (exists cMin', innerLoop a b indexA indicesB cMax cMin = Ret (cMin', true))
       /\ exists d, In d (visited a b indexA indicesB) /\ ltb d cMax = true.
Proof.
  intros HiA. induction indicesB as [|k rest IH]; intros Hrange cMin.
  - left. split; [reflexivity | intros ? []].
  - cbn [innerLoop visited map fold_left].
    rewrite (squared_distance_defined HiA (Hrange k (or_introl eq_refl))).
    destruct (ltb (sqDist (nth indexA a []) (nth k b [])) cMax) eqn:E.
    + right. split; [eauto|]. eexists. split; [left; reflexivity | exact E].
    + destruct (IH (fun k' Hk' => Hrange k' (or_intror Hk'))
                   (cMinStep cMin (sqDist (nth indexA a []) (nth k b []))))
        as [[Hrun Hall]|[[cMin' Hrun] (d & Hd & Hlt)]].
      * left. split; [exact Hrun|].
        intros d [<-|Hd]; [exact E | apply Hall, Hd].
      * right. split; [eauto|]. exists d. split; [right; exact Hd | exact Hlt].
Qed.

Lemma cMinOf_IsMin (indexA : nat) :
  IsMin (cMinOf a b indexA)
        (infinity :: map (fun q => sqDist (nth indexA a []) q) b).
Proof. apply minOf_IsMin. discriminate. Qed.

(** One outer iteration, pruned or not, updates [cMax] as [cMaxStep]
    says. *)
Lemma outerStep_spec (indicesB : list nat) (cMax : T) (indexA : nat) :
  Permutation indicesB (seq 0 (length b)) -> indexA < length a ->
  outerStep a b indicesB cMax indexA = Ret (cMaxStep a b cMax indexA).
Proof.
  intros Hp HiA.
  assert (Hvis : Permutation (visited a b indexA indicesB)
                             (map (fun q => sqDist (nth indexA a []) q) b)).
  { unfold visited.
    rewrite <- (map_map (fun k => nth k b []) (fun q => sqDist (nth indexA a []) q)).
    apply Permutation_map, shuffled_reads, Hp. }
  assert (Hmin : IsMin (cMinOf a b indexA) (infinity :: visited a b indexA indicesB)).
  { apply (IsMin_perm (perm_skip infinity (Permutation_sym Hvis))).
    apply cMinOf_IsMin. }
  unfold outerStep, cMaxStep.
  destruct (innerLoop_spec cMax indicesB HiA
                           (fun k Hk => @shuffled_in_range _ b indicesB k Hp Hk) infinity)
    as [[Hrun Hall]|[[cMin' Hrun] (d & Hd & Hlt)]]; rewrite Hrun; cbn [bind].
  - rewrite (IsMin_unique (cMin_fold (visited a b indexA indicesB) infinity) Hmin).
    rewrite leb_ltb, andb_true_r. unfold smax.
    destruct (isfinite (cMinOf a b indexA)); [|reflexivity].
    destruct (ltb (cMinOf a b indexA) cMax); reflexivity.
  - rewrite andb_false_r.
    assert (Hlow : ltb (cMinOf a b indexA) cMax = true).
    { destruct (ltb (cMinOf a b indexA) cMax) eqn:E; [reflexivity|].
      pose proof (sle_trans E (proj2 Hmin d (or_intror Hd))) as Hcontra.
      unfold sle in Hcontra. congruence. }
    unfold smax. rewrite Hlow. destruct (isfinite (cMinOf a b indexA)); reflexivity.
Qed.

Lemma outerLoop_spec (indicesB : list nat) :
  Permutation indicesB (seq 0 (length b)) ->
  forall indicesA cMax,
    (forall i, In i indicesA -> i < length a) ->
    forEach (outerStep a b indicesB) indicesA cMax
    = Ret (fold_left (cMaxStep a b) indicesA cMax).
Proof.
  intros Hp. induction indicesA as [|i rest IH]; intros cMax Hrange;
    cbn [forEach fold_left]; [reflexivity|].
  rewrite (outerStep_spec cMax Hp (Hrange i (or_introl eq_refl))).
  cbn [bind]. apply IH. intros k Hk. apply Hrange. right; exact Hk.
Qed.

(** The running [cMax] over the rows [xs], from [acc]. *)
Lemma fold_cMaxStep_spec (xs : list nat) (acc : T) :
  let v := fold_left (cMaxStep a b) xs acc in
  sle acc v
  /\ (forall i, In i xs -> isfinite (cMinOf a b i) = true -> sle (cMinOf a b i) v)
  /\ (v = acc \/ exists i, In i xs /\ isfinite (cMinOf a b i) = true
                           /\ v = cMinOf a b i).
Proof.
  revert acc. induction xs as [|x xs IH]; intros acc; cbn [fold_left].
  - split; [apply sle_refl|]. split; [intros ? []|left; reflexivity].
  - assert (Hstep : sle acc (cMaxStep a b acc x)
                    /\ (isfinite (cMinOf a b x) = true ->
                        sle (cMinOf a b x) (cMaxStep a b acc x))
                    /\ (cMaxStep a b acc x = acc
                        \/ isfinite (cMinOf a b x) = true
                           /\ cMaxStep a b acc x = cMinOf a b x)).
    { unfold cMaxStep. destruct (isfinite (cMinOf a b x)).
      - destruct (smax_cases (cMinOf a b x) acc) as (Hcase & Hfx & Hacc').
        split; [exact Hacc'|]. split; [intros _; exact Hfx|].
        destruct Hcase as [E|E]; [right; split; [reflexivity | exact E] | left; exact E].
      - split; [apply sle_refl|]. split; [discriminate | left; reflexivity]. }
    destruct Hstep as (Hs0 & Hsx & Hscase).
    destruct (IH (cMaxStep a b acc x)) as (Hacc & Hall & Hatt).
    split; [eapply sle_trans; eassumption|]. split.
    + intros y [<-|Hy] Hfy; [|apply Hall; assumption].
      eapply sle_trans; [apply Hsx, Hfy | exact Hacc].
    + destruct Hatt as [E|(y & Hy & Hfy & E)].
      * destruct Hscase as [E'|[Hfx E']].
        -- left. congruence.
        -- right. exists x. split; [left; reflexivity|]. split; [exact Hfx | congruence].
      * right. exists y. split; [right; exact Hy|]. split; assumption.
Qed.

Lemma fold_cMaxStep_same_elements (xs ys : list nat) (acc : T) :
  (forall i, In i xs <-> In i ys) ->
  fold_left (cMaxStep a b) xs acc = fold_left (cMaxStep a b) ys acc.
Proof.
  intros Hsame.
  destruct (fold_cMaxStep_spec xs acc) as (Hx0 & Hxall & Hxatt).
  destruct (fold_cMaxStep_spec ys acc) as (Hy0 & Hyall & Hyatt).
  apply sle_antisym.
  - destruct Hxatt as [E|(i & Hi & Hfi & E)]; rewrite E; [exact Hy0|].
    apply Hyall; [apply Hsame, Hi | exact Hfi].
  - destruct Hyatt as [E|(i & Hi & Hfi & E)]; rewrite E; [exact Hx0|].
    apply Hxall; [apply Hsame, Hi | exact Hfi].
Qed.

(** The value the call returns, whatever the two shuffles. *)
Lemma hausdorffDistance_value (indicesA indicesB : list nat) :
  a <> [] -> b <> [] ->
  Permutation indicesA (seq 0 (length a)) ->
  Permutation indicesB (seq 0 (length b)) ->
  hausdorffDistance indicesA indicesB a b = Ret (sqrt (finiteMaxMinSq a b)).
Proof.
  intros Hnea Hneb' HpA HpB.
  rewrite (hausdorffDistance_nonempty indicesA indicesB Hnea Hneb').
  rewrite (outerLoop_spec HpB indicesA zero
                          (fun i Hi => @shuffled_in_range _ a indicesA i HpA Hi)).
  cbn [bind]. do 2 f_equal. unfold finiteMaxMinSq.
  apply fold_cMaxStep_same_elements. intros i. split; intros Hi.
  - apply (Permutation_in _ HpA Hi).
  - apply (Permutation_in _ (Permutation_sym HpA) Hi).
Qed.

Lemma nearestSq_nonneg (indexA : nat) : b <> [] -> sle zero (nearestSq a b indexA).
Proof.
  intros Hne. unfold nearestSq.
  destruct (minOf_IsMin (l:=map (fun q => sqDist (nth indexA a []) q) b)) as [Hin _].
  { destruct b; [congruence | discriminate]. }
  apply in_map_iff in Hin. destruct Hin as (q & <- & _). apply sqDist_nonneg.
Qed.

(** When every squared distance is finite, the value is the directed
    Hausdorff distance, squared. *)
Lemma finiteMaxMinSq_directed `{!InfinityLaws T} :
  a <> [] -> b <> [] ->
  (forall p q, In p a -> In q b -> isfinite (sqDist p q) = true) ->
  finiteMaxMinSq a b = directedHausdorffSq a b.
Proof.
  intros Hnea Hneb' Hfin.
  assert (Hnear : forall i, i < length a ->
            cMinOf a b i = nearestSq a b i /\ isfinite (cMinOf a b i) = true).
  { intros i Hi.
    destruct (minOf_IsMin (l:=map (fun q => sqDist (nth i a []) q) b)) as [Hin Hall].
    { destruct b; [congruence | discriminate]. }
    assert (Hf : isfinite (nearestSq a b i) = true).
    { unfold nearestSq. apply in_map_iff in Hin. destruct Hin as (q & <- & Hq).
      apply Hfin; [apply nth_In, Hi | exact Hq]. }
    assert (E : cMinOf a b i = nearestSq a b i).
    { apply (IsMin_unique (cMinOf_IsMin i)). split; [right; exact Hin|].
      intros x [<-|Hx]; [|apply Hall, Hx].
      apply ltb_sle, finite_below_infinity, Hf. }
    rewrite E. split; [reflexivity | exact Hf]. }
  unfold finiteMaxMinSq.
  destruct (fold_cMaxStep_spec (seq 0 (length a)) zero) as (Hzero & Hall & Hatt).
  set (v := fold_left (cMaxStep a b) (seq 0 (length a)) zero) in *.
  assert (Hval : forall i, i < length a ->
            In (nearestSq a b i) (map (fun p => minOf (map (fun q => sqDist p q) b)) a)).
  { intros i Hi. apply in_map_iff. exists (nth i a []). split; [reflexivity|].
    apply nth_In, Hi. }
  assert (Hle : forall i, i < length a -> sle (nearestSq a b i) v).
  { intros i Hi. destruct (Hnear i Hi) as [E Hf]. rewrite <- E.
    apply Hall; [apply in_seq; lia | exact Hf]. }
  apply (IsMax_unique (l:=map (fun p => minOf (map (fun q => sqDist p q) b)) a)).
  - split.
    + destruct Hatt as [E|(i & Hi & _ & E)].
      * pose proof (nonempty_length Hnea) as Hlen0.
        assert (E0 : nearestSq a b 0 = v).
        { apply sle_antisym; [apply Hle, Hlen0|].
          rewrite E. apply nearestSq_nonneg, Hneb'. }
        rewrite <- E0. apply Hval, Hlen0.
      * apply in_seq in Hi. rewrite E, (proj1 (Hnear i ltac:(lia))).
        apply Hval. lia.
    + intros x Hx. apply in_map_iff in Hx. destruct Hx as (p & <- & Hp).
      destruct (In_nth a p [] Hp) as (i & Hi & E).
      pose proof (Hle i Hi) as Hle'. unfold nearestSq in Hle'. rewrite E in Hle'.
      exact Hle'.
  - apply maxOf_IsMax. intros E. apply map_eq_nil in E. contradiction.
Qed.
End OnePair.
End HausdorffFacts.

Section HausdorffErrors.
Context {T : Type} `{Scalar T}.

Lemma forEach_no_throw {S X : Type} (body : S -> X -> outcome S) (xs : list X) :
  (forall s x w, body s x <> Throw w) ->
  forall s w, forEach body xs s <> Throw w.
Proof.
  intros Hbody. induction xs as [|x xs IH]; intros s w; simpl; [discriminate|].
  destruct (body s x) as [s'| w' | |] eqn:E; simpl; try discriminate.
  - apply IH.
  - exfalso. exact (Hbody _ _ _ E).
Qed.

Lemma sumSquares_no_throw (a b : point T) (sum : T) (w : string) :
  Frechet.sumSquares a b sum <> Throw w.
Proof.
  revert b sum. induction a as [|x a IH]; intros [|y b] sum; simpl;
    try discriminate. apply IH.
Qed.

Lemma innerLoop_no_throw (a b : trajectory T) (indexA : nat) (indicesB : list nat)
      (cMax cMin : T) (w : string) :
  innerLoop a b indexA indicesB cMax cMin <> Throw w.
Proof.
  revert cMin. induction indicesB as [|k rest IH]; intros cMin; simpl; [discriminate|].
  unfold at_. destruct (nth_error a indexA) as [pa|]; simpl; [|discriminate].
  destruct (nth_error b k) as [pb|]; simpl; [|discriminate].
  destruct (Frechet.sumSquares pa pb zero) as [d| w' | |] eqn:E; try discriminate.
  - destruct (ltb d cMax); [discriminate | apply IH].
  - exfalso. exact (sumSquares_no_throw _ _ _ E).
Qed.

Lemma outerStep_no_throw (a b : trajectory T) (indicesB : list nat) (cMax : T)
      (indexA : nat) (w : string) :
  outerStep a b indicesB cMax indexA <> Throw w.
Proof.
  unfold outerStep.
  destruct (innerLoop a b indexA indicesB cMax infinity) as [[cMin br]| w' | |] eqn:E;
    simpl; try discriminate.
  - destruct (isfinite cMin && leb cMax cMin && negb br); discriminate.
  - exfalso. exact (innerLoop_no_throw _ _ _ _ _ _ E).
Qed.

(** Only the emptiness check throws. *)
Lemma hausdorffDistance_throws_iff (indicesA indicesB : list nat) (a b : trajectory T) :
  (exists w, hausdorffDistance indicesA indicesB a b = Throw w) <-> (a = [] \/ b = []).
Proof.
  split.
  - intros [w Hw]. destruct a as [|p a']; [left; reflexivity|].
    destruct b as [|q b']; [right; reflexivity|]. exfalso.
    rewrite hausdorffDistance_nonempty in Hw by discriminate.
    destruct (forEach _ _ _) as [cMax| w' | |] eqn:E; simpl in Hw; try discriminate.
    revert E. apply forEach_no_throw. intros s x w''. apply outerStep_no_throw.
  - intros [-> | ->].
    + eexists. reflexivity.
    + eexists. unfold hausdorffDistance. destruct a; reflexivity.
Qed.
End HausdorffErrors.

Section HausdorffTheorems.
Context {T : Type} `{ScalarLaws T}.

(** C1.  On non-empty trajectories of one point dimension all of whose
    squared point-to-point distances are finite, and for any two shuffles
    of the index vectors, [hausdorffDistance a b] returns the square root
    of the greatest, over the points [p] of [a], of the least, over the
    points [q] of [b], squared Euclidean distance between [p] and [q]. *)
Theorem hausdorffDistance_directed `{!InfinityLaws T} (indicesA indicesB : list nat)
        (a b : trajectory T) (dim : nat) :
  a <> [] -> b <> [] -> uniform dim a -> uniform dim b ->
  (forall p q, In p a -> In q b -> isfinite (sqDist p q) = true) ->
  Permutation indicesA (seq 0 (length a)) ->
  Permutation indicesB (seq 0 (length b)) ->
  hausdorffDistance indicesA indicesB a b = Ret (sqrt (directedHausdorffSq a b))
  /\ IsMax (directedHausdorffSq a b)
           (map (fun p => minOf (map (fun q => sqDist p q) b)) a)
  /\ (forall p, In p a ->
                IsMin (minOf (map (fun q => sqDist p q) b))
                      (map (fun q => sqDist p q) b)).
Proof.
  intros Hnea Hneb Ha Hb Hfin HpA HpB. split; [|split].
  - assert (E : finiteMaxMinSq a b = directedHausdorffSq a b)
      by (eapply finiteMaxMinSq_directed; eassumption).
    rewrite <- E. apply (hausdorffDistance_value Ha Hb); assumption.
  - apply maxOf_IsMax. intros E. apply map_eq_nil in E. contradiction.
  - intros p _. apply minOf_IsMin. intros E. apply map_eq_nil in E. contradiction.
Qed.

(** C6.  On non-empty trajectories of one point dimension the call returns,
    and returns the same scalar, for every pair of shuffles of the two
    index vectors. *)
Theorem hausdorffDistance_shuffle_independent
        (indicesA indicesB indicesA' indicesB' : list nat)
        (a b : trajectory T) (dim : nat) :
  a <> [] -> b <> [] -> uniform dim a -> uniform dim b ->
  Permutation indicesA (seq 0 (length a)) ->
  Permutation indicesB (seq 0 (length b)) ->
  Permutation indicesA' (seq 0 (length a)) ->
  Permutation indicesB' (seq 0 (length b)) ->
  exists v, hausdorffDistance indicesA indicesB a b = Ret v
            /\ hausdorffDistance indicesA' indicesB' a b = Ret v.
Proof.
  intros Hnea Hneb Ha Hb HpA HpB HpA' HpB'.
  exists (sqrt (finiteMaxMinSq a b)).
  split; apply (hausdorffDistance_value Ha Hb); assumption.
Qed.

(** C7.  [hausdorffDistance] throws exactly when one of the two
    trajectories is empty; a call that throws returns no scalar; on
    non-empty trajectories of one point dimension it returns one. *)
Theorem hausdorffDistance_throws_on_empty (indicesA indicesB : list nat)
        (a b : trajectory T) :
  ((exists w, hausdorffDistance indicesA indicesB a b = Throw w)
   <-> (a = [] \/ b = []))
  /\ ((a = [] \/ b = []) ->
      forall v, hausdorffDistance indicesA indicesB a b <> Ret v)
  /\ (forall dim, a <> [] -> b <> [] -> uniform dim a -> uniform dim b ->
                  Permutation indicesA (seq 0 (length a)) ->
                  Permutation indicesB (seq 0 (length b)) ->
                  exists v, hausdorffDistance indicesA indicesB a b = Ret v).
Proof.
  split; [apply hausdorffDistance_throws_iff|]. split.
  - intros Hempty v Hret.
    apply (proj2 (hausdorffDistance_throws_iff indicesA indicesB a b)) in Hempty.
    destruct Hempty as [w Hw]. congruence.
  - intros dim Hnea Hneb Ha Hb HpA HpB. eexists.
    apply (hausdorffDistance_value Ha Hb); assumption.
Qed.
End HausdorffTheorems.

#[export] Instance Z_InfinityLaws : InfinityLaws Z.
Proof.
  constructor. intros x Hx. exact Hx.
Qed.

Lemma hausdorffDistance_directed_witness :
  hausdorffDistance [1; 0] [2; 0; 1] [[0%Z; 0%Z]; [3%Z; 0%Z]]
                    [[0%Z; 4%Z]; [3%Z; 4%Z]; [6%Z; 4%Z]]
  = Ret 4%Z.
Proof.
  refine (proj1 (@hausdorffDistance_directed Z _ _ _ [1; 0] [2; 0; 1]
           [[0%Z; 0%Z]; [3%Z; 0%Z]] [[0%Z; 4%Z]; [3%Z; 4%Z]; [6%Z; 4%Z]] 2
           _ _ _ _ _ _ _)).
  - discriminate.
  - discriminate.
  - repeat constructor.
  - repeat constructor.
  - intros p q [<-|[<-|[]]] [<-|[<-|[<-|[]]]]; reflexivity.
  - simpl. apply perm_swap.
  - simpl. apply (Permutation_cons_app [0; 1] [] 2). apply Permutation_refl.
Defined.

(** C1, as stated, fails.  At [T = double], for [a = [(2^700)]] and
    [b = [(0)]], the one squared distance overflows to infinity: [cMin]
    stays at [infinity()], the [isfinite] guard skips the update of [cMax],
    and the call returns [0] where the directed distance is infinite. *)
Lemma hausdorffDistance_overflow_skipped :
  hausdorffDistance [0] [0] [[0x1p+700]]%float [[0]]%float = Ret 0%float
  /\ sqrt (directedHausdorffSq [[0x1p+700]]%float [[0]]%float) = PrimFloat.infinity
  /\ hausdorffDistance [0] [0] [[0x1p+700]]%float [[0]]%float
     <> Ret (sqrt (directedHausdorffSq [[0x1p+700]]%float [[0]]%float)).
Proof.
  split; [vm_compute; reflexivity|]. split; [vm_compute; reflexivity|].
  intros E.
  apply (f_equal (fun o => match o with
                           | Ret x => PrimFloat.eqb x 0
                           | _ => false
                           end)) in E.
  vm_compute in E. discriminate.
Qed.

Lemma hausdorffDistance_shuffle_independent_witness :
  exists v,
    hausdorffDistance [1; 0] [2; 0; 1] [[0%Z; 0%Z]; [3%Z; 0%Z]]
                      [[0%Z; 4%Z]; [3%Z; 4%Z]; [6%Z; 4%Z]] = Ret v
    /\ hausdorffDistance [0; 1] [0; 1; 2] [[0%Z; 0%Z]; [3%Z; 0%Z]]
                         [[0%Z; 4%Z]; [3%Z; 4%Z]; [6%Z; 4%Z]] = Ret v.
Proof.
  apply (@hausdorffDistance_shuffle_independent Z _ _ [1; 0] [2; 0; 1] [0; 1] [0; 1; 2]
           [[0%Z; 0%Z]; [3%Z; 0%Z]] [[0%Z; 4%Z]; [3%Z; 4%Z]; [6%Z; 4%Z]] 2).
  - discriminate.
  - discriminate.
  - repeat constructor.
  - repeat constructor.
  - simpl. apply perm_swap.
  - simpl. apply (Permutation_cons_app [0; 1] [] 2). apply Permutation_refl.
  - apply Permutation_refl.
  - apply Permutation_refl.
Defined.

Lemma hausdorffDistance_throws_on_empty_witness :
  (forall v, hausdorffDistance [] [0] ([] : trajectory Z) [[1%Z]] <> Ret v)
  /\ exists v, hausdorffDistance [1; 0] [0] [[0%Z]; [5%Z]] [[1%Z]] = Ret v.
Proof.
  split.
  - apply (proj1 (proj2 (@hausdorffDistance_throws_on_empty Z _ _ [] [0] [] [[1%Z]]))).
    left. reflexivity.
  - apply (proj2 (proj2 (@hausdorffDistance_throws_on_empty Z _ _ [1; 0] [0]
                           [[0%Z]; [5%Z]] [[1%Z]])) 1).
    + discriminate.
    + discriminate.
    + repeat constructor.
    + repeat constructor.
    + simpl. apply perm_swap.
    + apply Permutation_refl.
Defined.

(** * The Euclidean primitive on points of different dimension *)

Section Dimensions.
Context {T : Type} `{Scalar T}.

Lemma sumSq_firstn (a b : point T) (sum : T) :
  sumSq a b sum = sumSq a (firstn (length a) b) sum.
Proof.
  revert b sum. induction a as [|x a IH]; intros [|y b] sum; simpl; try reflexivity.
  apply IH.
Qed.

Lemma distanceMetric_no_throw (a b : point T) (w : string) :
  Frechet.distanceMetric a b <> Throw w.
Proof.
  unfold Frechet.distanceMetric.
  destruct (Frechet.sumSquares a b zero) as [s| w' | |] eqn:E; simpl; try discriminate.
  exfalso. exact (sumSquares_no_throw _ _ _ E).
Qed.

(** C8, as the code has it.  [distanceMetric] compares no dimensions and
    throws nothing.  When the second point has at least as many coordinates
    as the first, it returns the Euclidean distance between the first point
    and the second cut down to the first's dimension; when the second has
    fewer, it reads the second point out of range. *)
Theorem distanceMetric_unchecked (a b : point T) :
  (forall w, Frechet.distanceMetric a b <> Throw w)
  /\ (length a <= length b ->
      Frechet.distanceMetric a b = Ret (euclid a (firstn (length a) b)))
  /\ (length b < length a -> Frechet.distanceMetric a b = Undefined).
Proof.
  split; [intros w; apply distanceMetric_no_throw|]. split.
  - intros Hle. rewrite distanceMetric_defined by exact Hle.
    unfold euclid, sqDist. rewrite <- sumSq_firstn. reflexivity.
  - intros Hlt. unfold Frechet.distanceMetric.
    rewrite sumSquares_short by exact Hlt. reflexivity.
Qed.
End Dimensions.

Lemma distanceMetric_unchecked_witness :
  Frechet.distanceMetric [3; 4]%float [0; 0; 12]%float
  = Ret (euclid [3; 4]%float [0; 0]%float)
  /\ Frechet.distanceMetric [0; 0; 12]%float [3; 4]%float = Undefined.
Proof.
  split.
  - apply (proj1 (proj2 (distanceMetric_unchecked [3; 4]%float [0; 0; 12]%float))).
    simpl. lia.
  - apply (proj2 (proj2 (distanceMetric_unchecked [0; 0; 12]%float [3; 4]%float))).
    simpl. lia.
Defined.

(** C8, as stated, fails: a 2-D point against a 3-D point yields the number
    5, the distance to the 3-D point's first two coordinates, and the
    distance matrix of two trajectories of such points is filled with such
    numbers. *)
Lemma distanceMetric_mismatch_returns_number :
  length [3; 4]%float <> length [0; 0; 12]%float
  /\ Frechet.distanceMetric [3; 4]%float [0; 0; 12]%float = Ret 5%float
  /\ Frechet.computeDistanceMatrix 0 0%float
       [[3; 4]; [6; 8]]%float [[0; 0; 12]; [0; 0; 12]]%float
     = Ret ([[3; 4]; [6; 8]]%float, [[0; 0; 12]; [0; 0; 12]]%float,
            [[5; 0]; [0; 10]]%float, 10%float).
Proof.
  split; [simpl; lia|]. split; vm_compute; reflexivity.
Qed.

(** * The two passes that should widen the band *)

(** C4, at a failing input.  For [l1 = [(0), (3), (20)]] and
    [l2 = [(1), (2), (10)]] the core diagonal holds 1, 1, 10 and [diagMax] is
    10.  The cell right of the diagonal in row 0 is at distance 2, and the
    cell below the diagonal in column 0 is at distance 2, both below
    [diagMax]; the call leaves both unset. *)
Theorem band_not_widened (fuel : nat) (uninit : float) :
  Frechet.computeDistanceMatrix fuel uninit [[0]; [3]; [20]]%float [[1]; [2]; [10]]%float
  = Ret ([[0]; [3]; [20]]%float, [[1]; [2]; [10]]%float,
         [[1; 0; 0]; [0; 1; 0]; [0; 0; 10]]%float, 10%float)
  /\ Frechet.distanceMetric [0]%float [2]%float = Ret 2%float
  /\ Frechet.distanceMetric [3]%float [1]%float = Ret 2%float
  /\ ltb 2%float 10%float = true.
Proof.
  split; [|repeat split; vm_compute; reflexivity].
  rewrite (@computeDistanceMatrix_ordered float _ _ _ 1).
  - vm_compute. reflexivity.
  - repeat constructor.
  - repeat constructor.
  - simpl. lia.
  - simpl. lia.
Qed.

(** * A trajectory against itself *)

Lemma returned_Undefined {T : Type} (o : outcome (trajectory T * trajectory T * T)) :
  returned o = Undefined -> o = Undefined.
Proof. destruct o; simpl; intros E; try discriminate. reflexivity. Qed.

(** C9, at the scenario's input.  For [A = [(0,0), (1,0), (2,0)]] against
    itself every distance on the diagonal is 0, the value that also marks a
    cell as unset, so the row scan of [computeFrechetMatrix] runs past the end
    of row 1: the Frechet call has no defined result, for any fuel.  The
    Hausdorff call returns 0. *)
Theorem scenario_identical_trajectories (fuel : nat) (uninit : float) :
  Frechet.frechetDistance fuel uninit
    [[0; 0]; [1; 0]; [2; 0]]%float [[0; 0]; [1; 0]; [2; 0]]%float = Undefined
  /\ hausdorffDistance [0; 1; 2] [0; 1; 2]
       [[0; 0]; [1; 0]; [2; 0]]%float [[0; 0]; [1; 0]; [2; 0]]%float = Ret 0%float.
Proof.
  split; [|vm_compute; reflexivity].
  apply returned_Undefined.
  rewrite (@frechetDistance_from_band float _ fuel uninit _ _ 2).
  - vm_compute. reflexivity.
  - repeat constructor.
  - repeat constructor.
  - simpl. lia.
  - simpl. lia.
Qed.

(** * The coupling sweep *)

Unset Implicit Arguments.

Section CouplingSweep.
Context {T : Type} `{Scalar T}.

Variables (D : matrix T) (n m : nat).

Lemma minimumAt_ext (F F' : matrix T) (i j : nat) :
  (0 < i -> 0 < j -> mget F' (i - 1) (j - 1) = mget F (i - 1) (j - 1)) ->
  (0 < i -> mget F' (i - 1) j = mget F (i - 1) j) ->
  (0 < j -> mget F' i (j - 1) = mget F i (j - 1)) ->
  Frechet.minimumAt D F' i j = Frechet.minimumAt D F i j.
Proof.
  intros H1 H2 H3. unfold Frechet.minimumAt, rd.
  destruct (Nat.ltb_spec 0 i) as [Hi|Hi], (Nat.ltb_spec 0 j) as [Hj|Hj]; simpl;
    try rewrite (H1 Hi Hj); try rewrite (H2 Hi); try rewrite (H3 Hj); reflexivity.
Qed.

Lemma sweepRow_frame (i : nat) :
  forall cells j F F',
    Frechet.sweepRow D m cells i j F = Ret F' ->
    forall a b, a <> i \/ b < j -> mget F' a b = mget F a b.
Proof.
  induction cells as [|c cells IH]; intros j F F' Hrun a b Hab; simpl in Hrun.
  - congruence.
  - destruct (negb (eqb c zero) && (j <? m)); [|congruence].
    apply bind_Ret_inv in Hrun. destruct Hrun as (mn & _ & Hrun).
    rewrite (IH _ _ _ Hrun a b) by lia.
    apply mget_mset_other. intros E. injection E as <- <-. lia.
Qed.

Lemma sweepRow_shaped (i : nat) :
  forall cells j F F',
    shaped n m F -> Frechet.sweepRow D m cells i j F = Ret F' -> shaped n m F'.
Proof.
  induction cells as [|c cells IH]; intros j F F' Hsh Hrun; simpl in Hrun.
  - congruence.
  - destruct (negb (eqb c zero) && (j <? m)); [|congruence].
    apply bind_Ret_inv in Hrun. destruct Hrun as (mn & _ & Hrun).
    apply (IH _ _ _ (mset_shaped i j (smax mn c) Hsh) Hrun).
Qed.

Lemma sweepRow_cells (i : nat) :
  i < n ->
  forall cells j F F',
    shaped n m F ->
    Frechet.sweepRow D m cells i j F = Ret F' ->
    forall k d,
      nth_error cells k = Some d -> j + k < m ->
      (forall k', k' <= k -> exists d', nth_error cells k' = Some d' /\ eqb d' zero = false) ->
      exists minimum,
        Frechet.minimumAt D F' i (j + k) = Ret minimum
        /\ mget F' i (j + k) = Some (smax minimum d).
Proof.
  intros Hi. induction cells as [|c cells IH]; intros j F F' Hsh Hrun k d Hk Hlt Hset.
  - destruct k; discriminate.
  - simpl in Hrun.
    destruct (Hset 0 (Nat.le_0_l k)) as (c' & Ec & Hc). injection Ec as <-.
    assert (Hjm : (j <? m) = true) by (apply Nat.ltb_lt; lia).
    rewrite Hc, Hjm in Hrun. simpl in Hrun.
    apply bind_Ret_inv in Hrun. destruct Hrun as (mn & Hmn & Hrun).
    destruct k as [|k].
    + injection Hk as <-. rewrite Nat.add_0_r. exists mn.
      assert (Hframe : forall a b, a <> i \/ b < S j -> (a, b) <> (i, j) ->
                                   mget F' a b = mget F a b).
      { intros a b Hab Hne. rewrite (sweepRow_frame i _ _ _ _ Hrun a b Hab).
        apply mget_mset_other. congruence. }
      split.
      * rewrite <- Hmn. apply minimumAt_ext; intros; apply Hframe;
          try (left; lia); try (right; lia); intros E; injection E; lia.
      * rewrite (sweepRow_frame i _ _ _ _ Hrun i j) by lia.
        destruct (shaped_mget (i:=i) (j:=j) Hsh Hi) as [w Hw]; [lia|].
        apply (mget_mset_same _ _ _ _ Hw).
    + replace (j + S k) with (S j + k) by lia.
      apply (IH (S j) _ F' (mset_shaped i j (smax mn c) Hsh) Hrun k d Hk); [lia|].
      intros k' Hk'. apply (Hset (S k')). lia.
Qed.

Lemma frechetRow_inv (jMin j0 i : nat) (F F' : matrix T) :
  Frechet.frechetRow D m (jMin, F) i = Ret (j0, F') ->
  exists row, nth_error D i = Some row
              /\ Frechet.skipUnset (skipn jMin row) jMin = Ret j0
              /\ Frechet.sweepRow D m (skipn j0 row) i j0 F = Ret F'.
Proof.
  unfold Frechet.frechetRow, at_. destruct (nth_error D i) as [row|]; simpl; [|discriminate].
  intros Hrun. exists row. split; [reflexivity|].
  apply bind_Ret_inv in Hrun. destruct Hrun as (j & Hskip & Hrun).
  apply bind_Ret_inv in Hrun. destruct Hrun as (F'' & Hsweep & Hret).
  injection Hret as -> ->. split; assumption.
Qed.

Lemma frechetRow_done (jMin j0 i : nat) (F F' : matrix T) :
  shaped n m F -> i < n ->
  Frechet.frechetRow D m (jMin, F) i = Ret (j0, F') ->
  rowDone D m F' i j0 /\ shaped n m F'
  /\ (forall a b, a <> i -> mget F' a b = mget F a b).
Proof.
  intros Hsh Hi Hrun. apply frechetRow_inv in Hrun.
  destruct Hrun as (row & Hrow & _ & Hsweep).
  assert (Hcell : forall k, nth_error (skipn j0 row) k = mget D i (j0 + k)).
  { intros k. unfold mget. rewrite Hrow. apply nth_error_skipn. }
  split; [|split].
  - intros j d Hj0 Hjm Hset Hd.
    replace j with (j0 + (j - j0)) by lia.
    apply (sweepRow_cells i Hi _ _ _ _ Hsh Hsweep).
    + rewrite Hcell. replace (j0 + (j - j0)) with j by lia. exact Hd.
    + lia.
    + intros k' Hk'. rewrite Hcell. apply Hset. lia.
  - apply (sweepRow_shaped i _ _ _ _ Hsh Hsweep).
  - intros a b Hab. apply (sweepRow_frame i _ _ _ _ Hsweep). left; exact Hab.
Qed.

Lemma rowDone_ext (F F' : matrix T) (i j0 : nat) :
  (forall b, mget F' i b = mget F i b) ->
  (forall b, 0 < i -> mget F' (i - 1) b = mget F (i - 1) b) ->
  rowDone D m F i j0 -> rowDone D m F' i j0.
Proof.
  intros Hrow Hprev Hdone j d Hj0 Hjm Hset Hd.
  destruct (Hdone j d Hj0 Hjm Hset Hd) as (mn & Hmn & Hcell).
  exists mn. split.
  - rewrite <- Hmn. apply minimumAt_ext; intros; auto.
  - rewrite Hrow. exact Hcell.
Qed.

Lemma rows_loop :
  forall len s jMin F jEnd Fend,
    1 <= s -> s + len <= n -> shaped n m F ->
    rowCursor D (s - 1) = Ret jMin ->
    forEach (Frechet.frechetRow D m) (seq s len) (jMin, F) = Ret (jEnd, Fend) ->
    (forall a b, a < s -> mget Fend a b = mget F a b)
    /\ (forall i, s <= i < s + len ->
                  exists j0, rowCursor D i = Ret j0 /\ rowDone D m Fend i j0).
Proof.
  induction len as [|len IH]; intros s jMin F jEnd Fend Hs Hn Hsh Hcur Hrun.
  - simpl in Hrun. injection Hrun as -> ->. split; [reflexivity | intros i Hi; lia].
  - cbn [seq forEach] in Hrun.
    apply bind_Ret_inv in Hrun. destruct Hrun as ([j0 F1] & Hrow & Hrest).
    destruct (frechetRow_done jMin j0 s F F1 Hsh ltac:(lia) Hrow) as (Hdone & Hsh1 & Hframe1).
    assert (Hcur1 : rowCursor D s = Ret j0).
    { destruct s as [|s']; [lia|]. simpl in Hcur. rewrite Nat.sub_0_r in Hcur.
      simpl. rewrite Hcur. simpl.
      apply frechetRow_inv in Hrow. destruct Hrow as (row & Hrow & Hskip & _).
      unfold at_. rewrite Hrow. simpl. exact Hskip. }
    destruct (IH (S s) j0 F1 jEnd Fend ltac:(lia) ltac:(lia) Hsh1) as (Hframe & Hrows).
    { simpl. rewrite Nat.sub_0_r. exact Hcur1. }
    { exact Hrest. }
    split.
    + intros a b Ha. rewrite Hframe by lia. apply Hframe1. lia.
    + intros i Hi. destruct (Nat.eq_dec i s) as [->|Hne].
      * exists j0. split; [exact Hcur1|].
        apply (rowDone_ext F1 Fend s j0); [| |exact Hdone].
        -- intros b. apply Hframe. lia.
        -- intros b Hpos. apply Hframe. lia.
      * apply Hrows. lia.
Qed.

(** The skip loop stops at the first set cell, and only if all cells before
    it read as unset. *)
Lemma skipUnset_spec :
  forall cells j j0,
    Frechet.skipUnset cells j = Ret j0 ->
    j <= j0
    /\ (exists x, nth_error cells (j0 - j) = Some x /\ eqb x zero = false)
    /\ (forall k, k < j0 - j ->
                  exists y, nth_error cells k = Some y /\ eqb y zero = true).
Proof.
  induction cells as [|x cells IH]; intros j j0 Hrun; simpl in Hrun; [discriminate|].
  destruct (eqb x zero) eqn:Ex.
  - destruct (IH (S j) j0 Hrun) as (Hle & (y & Hy & Hnz) & Hb).
    split; [lia|]. split.
    + exists y. split; [|exact Hnz].
      replace (j0 - j) with (S (j0 - S j)) by lia. exact Hy.
    + intros k Hk. destruct k as [|k]; [exists x; split; [reflexivity | exact Ex]|].
      apply Hb. lia.
  - injection Hrun as <-. split; [lia|]. split.
    + exists x. rewrite Nat.sub_diag. split; [reflexivity | exact Ex].
    + intros k Hk. lia.
Qed.

(** The column the code's skip loops reach is the cursor of the row. *)
Lemma rowCursor_cursorAt :
  forall i j0, rowCursor D i = Ret j0 -> cursorAt D i j0.
Proof.
  induction i as [|i IH]; intros j0 Hcur; simpl in Hcur.
  - injection Hcur as <-. reflexivity.
  - apply bind_Ret_inv in Hcur. destruct Hcur as (jp & Hjp & Hcur).
    unfold at_ in Hcur. destruct (nth_error D (S i)) as [row|] eqn:Erow; [|discriminate].
    simpl in Hcur.
    destruct (skipUnset_spec _ _ _ Hcur) as (Hle & (x & Hx & Hnz) & Hbefore).
    exists jp. split; [apply IH, Hjp|]. split; [exact Hle|]. split.
    + exists x. split; [|exact Hnz]. unfold mget. rewrite Erow.
      rewrite nth_error_skipn in Hx. replace (jp + (j0 - jp)) with j0 in Hx by lia.
      exact Hx.
    + intros k Hk. destruct (Hbefore (k - jp) ltac:(lia)) as (y & Hy & Hz).
      exists y. split; [|exact Hz]. unfold mget. rewrite Erow.
      rewrite nth_error_skipn in Hy. replace (jp + (k - jp)) with k in Hy by lia.
      exact Hy.
Qed.

Lemma cursorAt_unique :
  forall i j0 j0', cursorAt D i j0 -> cursorAt D i j0' -> j0 = j0'.
Proof.
  induction i as [|i IH]; simpl; intros j0 j0' H1 H2; [congruence|].
  destruct H1 as (jp & Hp & Hle & (x & Hx & Hnz) & Hb).
  destruct H2 as (jp' & Hp' & Hle' & (x' & Hx' & Hnz') & Hb').
  pose proof (IH _ _ Hp Hp') as <-.
  destruct (Nat.lt_trichotomy j0 j0') as [Hlt|[E|Hgt]]; [|exact E|]; exfalso.
  - destruct (Hb' j0 ltac:(lia)) as (y & Hy & Hz). congruence.
  - destruct (Hb j0' ltac:(lia)) as (y & Hy & Hz). congruence.
Qed.

Lemma walked_inRun (i j : nat) : walked D m i j -> inRun D m i j.
Proof.
  intros (Hi & Hj & j0 & Hcur & Hj0 & Hset).
  split; [exact Hi|]. split; [exact Hj|].
  exists j0. split; [apply rowCursor_cursorAt, Hcur|]. split; assumption.
Qed.

Lemma inRun_walked (i j j0 : nat) :
  rowCursor D i = Ret j0 -> inRun D m i j -> walked D m i j.
Proof.
  intros Hcur (Hi & Hj & j0' & Hcur' & Hj0 & Hset).
  pose proof (cursorAt_unique i j0 j0' (rowCursor_cursorAt i j0 Hcur) Hcur') as <-.
  split; [exact Hi|]. split; [exact Hj|].
  exists j0. split; [exact Hcur|]. split; assumption.
Qed.
End CouplingSweep.

Section CouplingRecurrence.
Context {T : Type} `{ScalarLaws T}.

Lemma computeDistanceMatrix_lengths (fuel : nat) (uninit : T) (l1 l2 A B : trajectory T)
      (D : matrix T) (dm : T) :
  Frechet.computeDistanceMatrix fuel uninit l1 l2 = Ret (A, B, D, dm) ->
  1 <= length B /\ length B <= length A.
Proof.
  intros Hcall. pose proof (computeDistanceMatrix_args _ _ _ _ Hcall) as Hargs.
  unfold Frechet.computeDistanceMatrix in Hcall.
  destruct (Nat.ltb_spec (length l1) (length l2)) as [Hlt|Hge];
    injection Hargs as -> ->.
  - destruct (Nat.eqb_spec (length l1) 0); [discriminate | lia].
  - destruct (Nat.eqb_spec (length l2) 0); [discriminate | lia].
Qed.

(** The row loop of [computeFrechetMatrix], cut after row [k]. *)
Lemma computeFrechetMatrix_rows (fuel : nat) (uninit : T) (l1 l2 A B : trajectory T)
      (D : matrix T) (dm : T) (k jMin : nat) (F : matrix T) :
  Frechet.computeDistanceMatrix fuel uninit l1 l2 = Ret (A, B, D, dm) ->
  k <= length A - 1 ->
  sweptRows D (length A) (length B) k = Ret (jMin, F) ->
  Frechet.computeFrechetMatrix fuel uninit l1 l2
  = ('(_, F') <- forEach (Frechet.frechetRow D (length B))
                         (seq (1 + k) (length A - 1 - k)) (jMin, F) ;;
     Ret (A, B, F')).
Proof.
  intros Hcdm Hk Hrows. unfold Frechet.computeFrechetMatrix. rewrite Hcdm.
  cbn beta iota delta [bind].
  unfold sweptRows in Hrows.
  apply bind_Ret_inv in Hrows. destruct Hrows as (d00 & Hd00 & Hrows).
  rewrite Hd00. cbn beta iota delta [bind].
  replace (seq 1 (length A - 1))
    with (seq 1 k ++ seq (1 + k) (length A - 1 - k)).
  2:{ rewrite <- seq_app. f_equal. lia. }
  rewrite forEach_app, Hrows. reflexivity.
Qed.

Lemma IsMin_one (x : T) : IsMin x [x].
Proof. split; [left; reflexivity|]. intros y [<-|[]]. apply sle_refl. Qed.

Lemma IsMin_two (x y : T) : IsMin (smin x y) [x; y].
Proof.
  destruct (smin_cases x y) as (Hcase & Hx & Hy). split.
  - destruct Hcase as [->| ->]; [left | right; left]; reflexivity.
  - intros z [<-|[<-|[]]]; assumption.
Qed.

Lemma IsMin_three (x y z : T) : IsMin (smin (smin x y) z) [x; y; z].
Proof.
  destruct (IsMin_two x y) as [Hin Hall].
  destruct (smin_cases (smin x y) z) as (Hcase & Hxy & Hz). split.
  - destruct Hcase as [->| ->]; [|right; right; left; reflexivity].
    destruct Hin as [E|[E|[]]]; rewrite <- E; [left | right; left]; reflexivity.
  - intros w [<-|[<-|[<-|[]]]].
    + eapply sle_trans; [exact Hxy | apply Hall; left; reflexivity].
    + eapply sle_trans; [exact Hxy | apply Hall; right; left; reflexivity].
    + exact Hz.
Qed.

(** The three guarded updates leave in [minimum] the least of the
    candidates. *)
Lemma minimumAt_IsMin (D F : matrix T) (i j : nat) (minimum : T) :
  Frechet.minimumAt D F i j = Ret minimum -> IsMin minimum (candidates D F i j).
Proof.
  unfold Frechet.minimumAt, Frechet.isSet, rd, candidates, isSetCell, entry.
  destruct (0 <? i), (0 <? j); cbn [andb bind app];
    repeat match goal with
           | |- context [mget ?M ?a ?b] =>
               destruct (mget M a b); cbn [andb bind app negb]; try discriminate
           | |- context [eqb ?x zero] =>
               destruct (eqb x zero); cbn [andb bind app negb]; try discriminate
           end;
    intros E; injection E as <-;
    first [apply IsMin_one | apply IsMin_two | apply IsMin_three].
Qed.

(** C2, as the code has it.  Once [computeDistanceMatrix] has returned the
    banded matrix [D] (for the pair [A], [B] after any swap), consider the
    state [(jMin, F)] that the row loop of [computeFrechetMatrix] has reached
    after the rows [1], ..., [k]; the call continues from it with the
    remaining rows.  There [F(0,0) = D(0,0)]; in every row [1 <= i <= k] and
    for every cell [(i, j)] of the run of set cells that starts at the row's
    cursor, [F(i,j) = max(minimum, D(i,j))], where [minimum] is the least of
    the coupling at [(i-1,j-1)] if that distance cell is set and the
    sentinel otherwise, the coupling at [(i-1,j)] if set, and the coupling
    at [(i,j-1)] if set; with none of the three set,
    [F(i,j) = max(sentinel, D(i,j))].  When [computeFrechetMatrix] returns,
    [frechetDistance] returns the coupling at [(n-1, m-1)]. *)
Theorem coupling_recurrence (fuel : nat) (uninit : T) (l1 l2 A B : trajectory T)
        (D : matrix T) (diagMax : T) (k jMin : nat) (F : matrix T) :
  Frechet.computeDistanceMatrix fuel uninit l1 l2 = Ret (A, B, D, diagMax) ->
  k <= length A - 1 ->
  sweptRows D (length A) (length B) k = Ret (jMin, F) ->
  Frechet.computeFrechetMatrix fuel uninit l1 l2
  = ('(_, F') <- forEach (Frechet.frechetRow D (length B))
                         (seq (1 + k) (length A - 1 - k)) (jMin, F) ;;
     Ret (A, B, F'))
  /\ (exists d00, mget D 0 0 = Some d00 /\ mget F 0 0 = Some d00)
  /\ (forall i j d,
         i <= k -> inRun D (length B) i j -> mget D i j = Some d ->
         exists minimum,
           IsMin minimum (candidates D F i j)
           /\ mget F i j = Some (smax minimum d))
  /\ (forall i j d,
         i <= k -> inRun D (length B) i j -> mget D i j = Some d ->
         (j = 0 \/ isSetCell D (i - 1) (j - 1) = false) ->
         isSetCell D (i - 1) j = false ->
         (j = 0 \/ isSetCell D i (j - 1) = false) ->
         mget F i j = Some (smax Frechet.infinite d))
  /\ (forall F',
         Frechet.computeFrechetMatrix fuel uninit l1 l2 = Ret (A, B, F') ->
         Frechet.frechetDistance fuel uninit l1 l2
         = (v <- rd F' (length A - 1) (length B - 1) ;; Ret (A, B, v))).
Proof.
  intros Hcdm Hk Hrows.
  destruct (computeDistanceMatrix_lengths _ _ _ _ _ _ _ _ Hcdm) as [Hm Hnm].
  split; [exact (computeFrechetMatrix_rows _ _ _ _ _ _ _ _ _ _ _ Hcdm Hk Hrows)|].
  unfold sweptRows in Hrows.
  apply bind_Ret_inv in Hrows. destruct Hrows as (d00 & Hd00 & Hloop).
  assert (Hsh : shaped (length A) (length B) (mset (zeros (length A) (length B)) 0 0 d00))
    by (apply mset_shaped, zeros_shaped).
  destruct (rows_loop D (length A) (length B) k 1 0 _ jMin F (le_n 1) ltac:(lia) Hsh
                      eq_refl Hloop) as (Hframe & Hdone).
  assert (Hcells : forall i j d,
             i <= k -> inRun D (length B) i j -> mget D i j = Some d ->
             exists minimum,
               IsMin minimum (candidates D F i j)
               /\ mget F i j = Some (smax minimum d)).
  { intros i j d Hik Hrun Hd.
    destruct (Hdone i) as (j0 & Hcur & Hrow); [destruct Hrun; lia|].
    destruct (inRun_walked D (length B) i j j0 Hcur Hrun)
      as (_ & Hjm & j0' & Hcur' & Hj0 & Hset).
    assert (j0' = j0) as -> by congruence.
    destruct (Hrow j d Hj0 Hjm Hset Hd) as (mn & Hmn & Hcell).
    exists mn. split; [apply minimumAt_IsMin, Hmn | exact Hcell]. }
  split; [|split; [exact Hcells|split]].
  - exists d00. split.
    + unfold rd in Hd00. destruct (mget D 0 0); [congruence | discriminate].
    + rewrite Hframe by lia.
      eapply mget_mset_same. apply mget_zeros; lia.
  - intros i j d Hik Hrun Hd H1 H2 H3.
    destruct (Hcells i j d Hik Hrun Hd) as (mn & [Hin _] & Hcell).
    assert (E : candidates D F i j = [Frechet.infinite]).
    { assert (E1 : (0 <? i) && (0 <? j) && isSetCell D (i - 1) (j - 1) = false).
      { destruct H1 as [-> | E1]; [|rewrite E1; apply andb_false_r].
        change (0 <? 0) with false. rewrite andb_false_r. reflexivity. }
      assert (E3 : (0 <? j) && isSetCell D i (j - 1) = false).
      { destruct H3 as [-> | E3]; [reflexivity | rewrite E3; apply andb_false_r]. }
      unfold candidates. rewrite E1, E3, H2, andb_false_r. reflexivity. }
    rewrite E in Hin. destruct Hin as [<-|[]]. exact Hcell.
  - intros F' Hcfm. unfold Frechet.frechetDistance. rewrite Hcfm. reflexivity.
Qed.
End CouplingRecurrence.

Lemma coupling_recurrence_witness :
  exists minimum,
    IsMin minimum (candidates [[1; 0]; [1; 0]; [3; 0]; [0; 1]; [0; 1]]%Z
                              [[1; 0]; [1; 0]; [3; 0]; [0; 0]; [0; 0]]%Z 2 0)
    /\ mget [[1; 0]; [1; 0]; [3; 0]; [0; 0]; [0; 0]]%Z 2 0 = Some (smax minimum 3%Z).
Proof.
  refine (proj1 (proj2 (proj2 (@coupling_recurrence Z _ _ 0 0%Z
            [[0%Z]; [2%Z]; [4%Z]; [6%Z]; [8%Z]] [[1%Z]; [7%Z]]
            [[0%Z]; [2%Z]; [4%Z]; [6%Z]; [8%Z]] [[1%Z]; [7%Z]]
            [[1; 0]; [1; 0]; [3; 0]; [0; 1]; [0; 1]]%Z 3%Z 2 0
            [[1; 0]; [1; 0]; [3; 0]; [0; 0]; [0; 0]]%Z _ _ _))) 2 0 3%Z _ _ _).
  - vm_compute. reflexivity.
  - simpl. lia.
  - vm_compute. reflexivity.
  - lia.
  - split; [lia|]. split; [simpl; lia|]. exists 0.
    split; [|split; [lia|]].
    + exists 0. split; [exists 0; split; [reflexivity|] |].
      * split; [lia|]. split; [exists 1%Z; split; reflexivity | intros k Hk; lia].
      * split; [lia|]. split; [exists 3%Z; split; reflexivity | intros k Hk; lia].
    + intros k Hk. assert (k = 0) as -> by lia. exists 3%Z. split; reflexivity.
  - reflexivity.
Defined.

(** C2, as stated, fails.  For [l1 = [(0),(1),(6),(4),(5),(8),(9)]] and
    [l2 = [(0),(3),(7)]], after the sweep of the rows 1 to 4: cell [(1,0)]
    is set (distance 1) and its only predecessor [(0,0)] is not, yet its
    coupling is the sentinel [max() - 1], not the distance 1; cell [(2,2)]
    is set (distance 1) with the set predecessor [(1,1)], yet the sweep of
    row 2 has stopped at the unset cell [(2,1)] and left its coupling at 0.
    The call itself has no defined result. *)
Lemma coupling_differs_from_stated :
  let D := [[0; 0; 0]; [1; 2; 0]; [6; 0; 1]; [0; 1; 0]; [0; 2; 0]; [0; 0; 1]; [0; 0; 2]]%float in
  let big := 0x1.fffffffffffffp+1023%float in
  let F := [[0; 0; 0]; [big; big; 0]; [big; 0; 0]; [0; big; 0]; [0; big; 0];
            [0; 0; 0]; [0; 0; 0]]%float in
  let l1 := [[0]; [1]; [6]; [4]; [5]; [8]; [9]]%float in
  let l2 := [[0]; [3]; [7]]%float in
  Frechet.computeDistanceMatrix 0 0%float l1 l2 = Ret (l1, l2, D, 6%float)
  /\ sweptRows D 7 3 4 = Ret (1, F)
  /\ isSetCell D 1 0 = true /\ isSetCell D 0 0 = false
  /\ mget D 1 0 = Some 1%float /\ mget F 1 0 = Some big
  /\ isSetCell D 2 2 = true /\ isSetCell D 1 1 = true
  /\ mget D 2 2 = Some 1%float /\ mget F 2 2 = Some 0%float
  /\ Frechet.frechetDistance 0 0%float l1 l2 = Undefined.
Proof.
  repeat split; vm_compute; reflexivity.
Qed.

(** * Any trajectory against itself *)

Section SelfDistance.
Context {T : Type} `{ScalarLaws T}.

Lemma sumSq_diag (p : point T) : sumSq p p zero = zero.
Proof.
  induction p as [|x p IH]; simpl; [reflexivity|].
  rewrite sub_diag, mul_zero, add_zero. exact IH.
Qed.

Lemma dist_diag (A : trajectory T) (i : nat) : dist A A i i = zero.
Proof. unfold dist, euclid, sqDist. rewrite sumSq_diag. apply sqrt_zero. Qed.

Lemma upd_fixed {X : Type} (l : list X) (k : nat) (f : X -> X) :
  (forall x, In x l -> f x = x) -> upd l k f = l.
Proof.
  revert k. induction l as [|y l IH]; intros k Hf; [destruct k; reflexivity|].
  destruct k as [|k]; simpl.
  - rewrite Hf by (left; reflexivity). reflexivity.
  - rewrite IH; [reflexivity|]. intros x Hx. apply Hf. right; exact Hx.
Qed.

Lemma mset_zeros (n m i j : nat) : mset (zeros n m) i j zero = zeros n m.
Proof.
  unfold mset, zeros. apply upd_fixed.
  intros row Hrow. apply repeat_spec in Hrow. subst row.
  apply upd_fixed. intros x Hx. apply repeat_spec in Hx. symmetry. exact Hx.
Qed.

Lemma coreFold_self (A : trajectory T) (n m : nat) (jOf : nat -> nat) (xs : list nat) :
  (forall i, In i xs -> jOf i = i) ->
  coreFold A A jOf xs (zeros n m, zero) = (zeros n m, zero).
Proof.
  induction xs as [|k xs IH]; intros E; simpl; [reflexivity|].
  rewrite (E k) by (left; reflexivity).
  rewrite dist_diag, mset_zeros.
  unfold smax. rewrite ltb_irrefl.
  apply IH. intros i Hi. apply E. right; exact Hi.
Qed.

Lemma mainDiagFold_self (A : trajectory T) (xs : list nat) (D : matrix T) :
  mainDiagFold A A zero xs D = D.
Proof.
  revert D. induction xs as [|k xs IH]; intros D; simpl; [reflexivity|].
  rewrite dist_diag, ltb_irrefl. apply IH.
Qed.

(** Against itself a trajectory yields the all-zero matrix: every cell
    reads as unset. *)
Lemma bandMatrix_self (A : trajectory T) :
  1 <= length A -> bandMatrix A A = zeros (length A) (length A).
Proof.
  intros Hn.
  assert (Hcore : coreState A A = (zeros (length A) (length A), zero)).
  { unfold coreState.
    rewrite Nat.div_same by lia. rewrite Nat.Div0.mod_same.
    rewrite coreFold_self.
    - apply coreFold_self. intros i Hi. rewrite Nat.sub_0_r. apply Nat.div_1_r.
    - intros i Hi. apply in_seq in Hi. assert (i = 0) as -> by lia. reflexivity. }
  unfold bandMatrix, bandMax. rewrite Hcore. apply mainDiagFold_self.
Qed.

Lemma skipUnset_zeros (k j : nat) : Frechet.skipUnset (repeat zero k) j = Undefined.
Proof.
  revert j. induction k as [|k IH]; intros j; simpl; [reflexivity|].
  rewrite (proj2 (eqb_eq zero zero) eq_refl). apply IH.
Qed.

(** With two points or more, the row scan leaves row 1: no trajectory of
    that length has a defined Frechet distance to itself.  A single point
    has distance 0 to itself. *)
Lemma frechetDistance_self (fuel : nat) (uninit : T) (A : trajectory T) (dim : nat) :
  uniform dim A ->
  (2 <= length A -> Frechet.frechetDistance fuel uninit A A = Undefined)
  /\ (length A = 1 -> returned (Frechet.frechetDistance fuel uninit A A) = Ret zero).
Proof.
  intros HA. split.
  - intros Hn. apply returned_Undefined.
    rewrite (frechetDistance_from_band fuel uninit HA HA) by lia.
    rewrite bandMatrix_self by lia.
    unfold couplingFrom, rd. rewrite mget_zeros by lia. cbn [bind].
    destruct (length A) as [|[|n]] eqn:En; try lia.
    cbn [Nat.sub seq forEach]. unfold Frechet.frechetRow at 1.
    unfold at_, zeros at 1. cbn [repeat nth_error skipn bind].
    change (zero :: zero :: repeat zero n) with (repeat zero (S (S n))).
    rewrite (skipUnset_zeros (S (S n)) 0). reflexivity.
  - intros Hn.
    rewrite (frechetDistance_from_band fuel uninit HA HA) by lia.
    rewrite bandMatrix_self by lia. rewrite Hn.
    unfold couplingFrom, rd. rewrite mget_zeros by lia. cbn [bind].
    reflexivity.
Qed.
End SelfDistance.

(** * The exact content of the banded matrix *)

Section BandContent.
Context {T : Type} `{Scalar T}.
Variables (A B : trajectory T).

Lemma coreFold_untouched (jOf : nat -> nat) (xs : list nat) (st : matrix T * T)
      (i j : nat) :
  (forall k, In k xs -> (k, jOf k) <> (i, j)) ->
  mget (fst (coreFold A B jOf xs st)) i j = mget (fst st) i j.
Proof.
  revert st. induction xs as [|k xs IH]; intros st Hne; simpl; [reflexivity|].
  rewrite IH by (intros k' Hk'; apply Hne; right; exact Hk'). simpl.
  apply mget_mset_other. apply Hne. left; reflexivity.
Qed.

Lemma mainDiagFold_untouched (dm : T) (xs : list nat) (D : matrix T) (i j : nat) :
  i <> j \/ ltb (dist A B i i) dm = false \/ ~ In i xs ->
  mget (mainDiagFold A B dm xs D) i j = mget D i j.
Proof.
  revert D. induction xs as [|k xs IH]; intros D Hout; simpl; [reflexivity|].
  rewrite IH by (destruct Hout as [Hne|[Hge|Hnin]]; auto;
                 right; right; intros Hin; apply Hnin; right; exact Hin).
  destruct (ltb (dist A B k k) dm) eqn:Elt; [|reflexivity].
  apply mget_mset_other. intros E. injection E as Ei Ej.
  destruct Hout as [Hne|[Hge|Hnin]].
  - congruence.
  - subst k. congruence.
  - apply Hnin. left. exact Ei.
Qed.

Lemma mainDiagFold_writes (dm : T) (xs : list nat) (D : matrix T) (i : nat) (w : T) :
  In i xs -> ltb (dist A B i i) dm = true -> mget D i i = Some w ->
  mget (mainDiagFold A B dm xs D) i i = Some (dist A B i i).
Proof.
  revert D w. induction xs as [|k xs IH]; intros D w Hin Hlt Hw; [destruct Hin|].
  simpl. destruct (Nat.eq_dec k i) as [->|Hne].
  - rewrite Hlt. apply mainDiagFold_preserves.
    apply (mget_mset_same D i i (dist A B i i) Hw).
  - destruct Hin as [Hk|Hin]; [congruence|].
    destruct (ltb (dist A B k k) dm).
    + apply (IH _ w Hin Hlt). rewrite mget_mset_other by congruence. exact Hw.
    + apply (IH _ w Hin Hlt Hw).
Qed.

Lemma mainDiagFold_shaped (dm : T) (xs : list nat) (D : matrix T) (n m : nat) :
  shaped n m D -> shaped n m (mainDiagFold A B dm xs D).
Proof.
  revert D. induction xs as [|k xs IH]; intros D HD; simpl; [exact HD|].
  apply IH. destruct (ltb (dist A B k k) dm); [apply mset_shaped|]; exact HD.
Qed.

Hypothesis Hm : 1 <= length B.
Hypothesis Hnm : length B <= length A.

Lemma bandMatrix_shaped : shaped (length A) (length B) (bandMatrix A B).
Proof.
  unfold bandMatrix. apply mainDiagFold_shaped.
  unfold coreState. do 2 apply coreFold_shaped. simpl. apply zeros_shaped.
Qed.

(** Every cell of the matrix: the distance of its pair inside the band,
    [0] outside. *)
Lemma bandMatrix_cells (i j : nat) :
  i < length A -> j < length B ->
  mget (bandMatrix A B) i j
  = Some (if inBand A B i j then dist A B i j else zero).
Proof.
  intros Hi Hj. unfold inBand.
  set (q := length A / length B). set (r := length A mod length B).
  assert (Hcore : mget (fst (coreState A B)) i (coreJ q r i)
                  = Some (dist A B i (coreJ q r i))).
  { rewrite (coreState_coreJ A B Hm Hnm). fold q r.
    apply (coreFold_writes A B (coreJ q r) (n:=length A) (m:=length B)).
    - simpl. apply zeros_shaped.
    - intros k Hk. apply (coreRows_In k Hm Hnm) in Hk.
      split; [exact Hk | apply (coreJ_in_range Hm Hnm), Hk].
    - apply (coreRows_In i Hm Hnm), Hi. }
  destruct (Nat.eqb_spec j (coreJ q r i)) as [->|Hoff]; simpl.
  - unfold bandMatrix. apply mainDiagFold_preserves. exact Hcore.
  - assert (Hzero : mget (fst (coreState A B)) i j = Some zero).
    { rewrite (coreState_coreJ A B Hm Hnm). fold q r.
      rewrite coreFold_untouched.
      - simpl. apply mget_zeros; assumption.
      - intros k _ E. injection E as Ek Ej. subst k. congruence. }
    unfold bandMatrix.
    destruct (Nat.eqb_spec i j) as [<-|Hij]; simpl.
    + destruct (Nat.ltb_spec i (length B)) as [_|Hge]; [|lia]. simpl.
      fold (bandMax A B).
      destruct (ltb (dist A B i i) (bandMax A B)) eqn:Elt.
      * apply (mainDiagFold_writes (bandMax A B) (seq 0 (length B)) _ i zero);
          [apply in_seq; lia | exact Elt | exact Hzero].
      * rewrite mainDiagFold_untouched by (right; left; exact Elt). exact Hzero.
    + rewrite mainDiagFold_untouched by (left; exact Hij). exact Hzero.
Qed.
End BandContent.

Section BandTheorems.
Context {T : Type} `{Scalar T}.

Lemma shaped_mget_range (n m : nat) (M : matrix T) (i j : nat) (d : T) :
  shaped n m M -> mget M i j = Some d -> i < n /\ j < m.
Proof.
  intros [Hn Hrows] Hget. unfold mget in Hget.
  destruct (nth_error M i) as [row|] eqn:Erow; [|discriminate].
  assert (Hi : i < length M) by (apply nth_error_Some; congruence).
  assert (Hj : j < length row) by (apply nth_error_Some; congruence).
  rewrite Forall_forall in Hrows.
  rewrite (Hrows row (nth_error_In _ _ Erow)) in Hj. lia.
Qed.

Lemma swapped_ordered (l1 l2 : trajectory T) (dim : nat) :
  l1 <> [] -> l2 <> [] -> uniform dim l1 -> uniform dim l2 ->
  let A := if length l1 <? length l2 then l2 else l1 in
  let B := if length l1 <? length l2 then l1 else l2 in
  uniform dim A /\ uniform dim B /\ 1 <= length B /\ length B <= length A
  /\ forall fuel uninit,
      Frechet.computeDistanceMatrix fuel uninit l1 l2
      = Frechet.computeDistanceMatrix fuel uninit A B.
Proof.
  intros Hl1 Hl2 Hu1 Hu2 A B. unfold A, B.
  pose proof (nonempty_length Hl1). pose proof (nonempty_length Hl2).
  destruct (Nat.ltb_spec (length l1) (length l2)) as [Hlt|Hge];
    repeat split; try assumption; try lia.
  - intros fuel uninit. apply computeDistanceMatrix_swap, Hlt.
Qed.

(** With an empty trajectory in either position the quotient [n / m] divides
    by zero: the Frechet entry points have no defined result and throw
    nothing. *)
Theorem frechet_empty_undefined (fuel : nat) (uninit : T) (l1 l2 : trajectory T) :
  l1 = [] \/ l2 = [] ->
  Frechet.computeDistanceMatrix fuel uninit l1 l2 = Undefined
  /\ Frechet.computeFrechetMatrix fuel uninit l1 l2 = Undefined
  /\ Frechet.frechetDistance fuel uninit l1 l2 = Undefined.
Proof.
  intros Hempty.
  assert (Hcdm : Frechet.computeDistanceMatrix fuel uninit l1 l2 = Undefined).
  { unfold Frechet.computeDistanceMatrix.
    destruct (Nat.ltb_spec (length l1) (length l2)) as [Hlt|Hge].
    - assert (length l1 = 0) as -> by (destruct Hempty as [-> | ->]; simpl in *; lia).
      reflexivity.
    - assert (length l2 = 0) as -> by (destruct Hempty as [-> | ->]; simpl in *; lia).
      reflexivity. }
  split; [exact Hcdm|].
  unfold Frechet.frechetDistance, Frechet.computeFrechetMatrix.
  rewrite Hcdm. split; reflexivity.
Qed.

(** On non-empty trajectories of one point dimension the result of
    [frechetDistance] depends neither on the fuel given to the two band
    loops nor on the indeterminate content of the local [d]: the loops end
    by themselves and the uninitialised read never decides anything. *)
Theorem frechetDistance_fuel_independent (fuel fuel' : nat) (uninit uninit' : T)
        (l1 l2 : trajectory T) (dim : nat) :
  l1 <> [] -> l2 <> [] -> uniform dim l1 -> uniform dim l2 ->
  Frechet.frechetDistance fuel uninit l1 l2
  = Frechet.frechetDistance fuel' uninit' l1 l2
  /\ exists D diagMax,
      Frechet.computeDistanceMatrix 0 uninit l1 l2
      = Ret (if length l1 <? length l2 then l2 else l1,
             if length l1 <? length l2 then l1 else l2, D, diagMax).
Proof.
  intros Hl1 Hl2 Hu1 Hu2.
  destruct (swapped_ordered l1 l2 dim Hl1 Hl2 Hu1 Hu2) as (HuA & HuB & Hm & Hnm & Hcall).
  split.
  - unfold Frechet.frechetDistance, Frechet.computeFrechetMatrix.
    rewrite !Hcall.
    rewrite (computeDistanceMatrix_ordered HuA HuB fuel uninit Hm Hnm).
    rewrite (computeDistanceMatrix_ordered HuA HuB fuel' uninit' Hm Hnm).
    reflexivity.
  - rewrite Hcall. do 2 eexists.
    apply (computeDistanceMatrix_ordered HuA HuB 0 uninit Hm Hnm).
Qed.

(** The matrix [computeDistanceMatrix] returns is [n] by [m]; a cell holds
    the Euclidean distance of its pair of points when it lies on the core
    diagonal, or on the main diagonal with a distance below [diagMax], and
    [0] everywhere else. *)
Theorem band_content (fuel : nat) (uninit : T) (l1 l2 : trajectory T) (dim : nat) :
  l1 <> [] -> l2 <> [] -> uniform dim l1 -> uniform dim l2 ->
  let A := if length l1 <? length l2 then l2 else l1 in
  let B := if length l1 <? length l2 then l1 else l2 in
  let n := length A in
  let m := length B in
  exists D diagMax,
    Frechet.computeDistanceMatrix fuel uninit l1 l2 = Ret (A, B, D, diagMax)
    /\ shaped n m D
    /\ forall i j, i < n -> j < m ->
         mget D i j
         = Some (if (j =? coreJ (n / m) (n mod m) i)
                    || ((i =? j) && (i <? m) && ltb (dist A B i i) diagMax)
                 then dist A B i j else zero).
Proof.
  intros Hl1 Hl2 Hu1 Hu2 A B n m.
  destruct (swapped_ordered l1 l2 dim Hl1 Hl2 Hu1 Hu2) as (HuA & HuB & Hm & Hnm & Hcall).
  fold A B in HuA, HuB, Hm, Hnm, Hcall.
  exists (bandMatrix A B), (bandMax A B). split; [|split].
  - rewrite Hcall. apply (computeDistanceMatrix_ordered HuA HuB fuel uninit Hm Hnm).
  - apply bandMatrix_shaped.
  - intros i j Hi Hj. apply (bandMatrix_cells A B Hm Hnm i j Hi Hj).
Qed.
End BandTheorems.

Section BandBounds.
Context {T : Type} `{ScalarLaws T}.

Lemma bandMax_fold (A B : trajectory T) :
  1 <= length B -> length B <= length A ->
  bandMax A B
  = fold_left (fun acc i =>
                 smax (dist A B i (coreJ (length A / length B)
                                         (length A mod length B) i)) acc)
              (coreRows (length A) (length B)) zero.
Proof.
  intros Hm Hnm. unfold bandMax.
  rewrite (coreState_coreJ A B Hm Hnm), coreFold_snd. reflexivity.
Qed.

Lemma bandMatrix_bounded (A B : trajectory T) (i j : nat) (d : T) :
  1 <= length B -> length B <= length A ->
  mget (bandMatrix A B) i j = Some d -> sle zero d /\ sle d (bandMax A B).
Proof.
  intros Hm Hnm Hget.
  destruct (shaped_mget_range _ _ _ i j d (bandMatrix_shaped A B) Hget) as [Hi Hj].
  rewrite (bandMatrix_cells A B Hm Hnm i j Hi Hj) in Hget. injection Hget as <-.
  pose proof (bandMax_fold A B Hm Hnm) as Hfold.
  destruct (fold_smax_spec
              (fun i => dist A B i (coreJ (length A / length B)
                                          (length A mod length B) i))
              (coreRows (length A) (length B)) zero) as (Hzero & Hall & _).
  rewrite <- Hfold in Hzero, Hall.
  unfold inBand.
  destruct (Nat.eqb_spec j (coreJ (length A / length B) (length A mod length B) i))
    as [->|Hoff]; simpl.
  - split; [apply euclid_nonneg|]. apply Hall. apply (coreRows_In i Hm Hnm), Hi.
  - destruct (Nat.eqb_spec i j) as [<-|Hij]; simpl;
      [|split; [apply sle_refl | exact Hzero]].
    destruct (i <? length B); simpl; [|split; [apply sle_refl | exact Hzero]].
    destruct (ltb (dist A B i i) (bandMax A B)) eqn:Elt;
      [|split; [apply sle_refl | exact Hzero]].
    split; [apply euclid_nonneg | apply ltb_sle, Elt].
Qed.

(** Every entry of the returned distance matrix lies between [0] and the
    returned [diagMax]; in particular [diagMax] is not negative. *)
Theorem band_bounded (fuel : nat) (uninit : T) (l1 l2 : trajectory T) (dim : nat) :
  l1 <> [] -> l2 <> [] -> uniform dim l1 -> uniform dim l2 ->
  exists A B D diagMax,
    Frechet.computeDistanceMatrix fuel uninit l1 l2 = Ret (A, B, D, diagMax)
    /\ sle zero diagMax
    /\ forall i j d, mget D i j = Some d -> sle zero d /\ sle d diagMax.
Proof.
  intros Hl1 Hl2 Hu1 Hu2.
  destruct (swapped_ordered l1 l2 dim Hl1 Hl2 Hu1 Hu2) as (HuA & HuB & Hm & Hnm & Hcall).
  set (A := if length l1 <? length l2 then l2 else l1) in *.
  set (B := if length l1 <? length l2 then l1 else l2) in *.
  exists A, B, (bandMatrix A B), (bandMax A B). split; [|split].
  - rewrite Hcall. apply (computeDistanceMatrix_ordered HuA HuB fuel uninit Hm Hnm).
  - pose proof (bandMax_fold A B Hm Hnm) as Hfold.
    destruct (fold_smax_spec
                (fun i => dist A B i (coreJ (length A / length B)
                                            (length A mod length B) i))
                (coreRows (length A) (length B)) zero)
      as (Hzero & _ & _).
    rewrite Hfold. exact Hzero.
  - intros i j d Hget. apply (bandMatrix_bounded A B i j d Hm Hnm Hget).
Qed.
End BandBounds.

(** * More on the Euclidean primitive and the Hausdorff entry point *)

Section PrimitiveFacts.
Context {T : Type} `{ScalarLaws T}.

(** On points of equal dimension [distanceMetric] is symmetric and never
    negative, and a point is at distance 0 from itself. *)
Theorem distanceMetric_metric (a b : point T) :
  length a = length b ->
  Frechet.distanceMetric a b = Frechet.distanceMetric b a
  /\ (exists v, Frechet.distanceMetric a b = Ret v /\ sle zero v)
  /\ Frechet.distanceMetric a a = Ret zero.
Proof.
  intros Hlen. split; [|split].
  - rewrite !distanceMetric_defined by lia.
    unfold euclid, sqDist. rewrite sumSq_sym. reflexivity.
  - exists (euclid a b). split; [apply distanceMetric_defined; lia|].
    apply euclid_nonneg.
  - rewrite distanceMetric_defined by lia.
    unfold euclid, sqDist. rewrite sumSq_diag, sqrt_zero. reflexivity.
Qed.

(** When every point of [a] also occurs in [b] (in particular when the two
    trajectories are the same), [hausdorffDistance a b] returns 0, whatever
    the shuffles. *)
Theorem hausdorffDistance_contained (indicesA indicesB : list nat)
        (a b : trajectory T) (dim : nat) :
  a <> [] -> uniform dim a -> uniform dim b ->
  (forall p, In p a -> In p b) ->
  Permutation indicesA (seq 0 (length a)) ->
  Permutation indicesB (seq 0 (length b)) ->
  hausdorffDistance indicesA indicesB a b = Ret zero.
Proof.
  intros Hnea Ha Hb Hincl HpA HpB.
  assert (Hneb : b <> []).
  { intros ->. destruct a as [|p a']; [congruence|]. apply (Hincl p). left; reflexivity. }
  rewrite (hausdorffDistance_value Ha Hb Hnea Hneb HpA HpB).
  assert (Hval : finiteMaxMinSq a b = zero).
  { unfold finiteMaxMinSq.
    destruct (fold_cMaxStep_spec a b (seq 0 (length a)) zero) as (Hzero & _ & Hatt).
    destruct Hatt as [E|(i & Hi & _ & E)]; [exact E|].
    apply sle_antisym; [|exact Hzero].
    rewrite E. apply in_seq in Hi.
    destruct (cMinOf_IsMin a b i) as [_ Hall].
    replace zero with (sqDist (nth i a []) (nth i a [])) by apply sumSq_diag.
    apply Hall. right. apply in_map_iff. exists (nth i a []).
    split; [reflexivity|]. apply Hincl, nth_In. lia. }
  rewrite Hval, sqrt_zero. reflexivity.
Qed.

(** On non-empty trajectories of one point dimension [hausdorffDistance]
    returns the square root of the greatest of [0] and those of the values
    [cMinOf a b i] (the least of [infinity()] and the squared distances from
    point [i] of [a] to the points of [b]) that are finite: a point of [a]
    whose squared distances to [b] are all not finite is skipped. *)
Theorem hausdorffDistance_finite_rows (indicesA indicesB : list nat)
        (a b : trajectory T) (dim : nat) :
  a <> [] -> b <> [] -> uniform dim a -> uniform dim b ->
  Permutation indicesA (seq 0 (length a)) ->
  Permutation indicesB (seq 0 (length b)) ->
  exists v,
    hausdorffDistance indicesA indicesB a b = Ret (sqrt v)
    /\ IsMax v (zero :: map (cMinOf a b)
                           (filter (fun i => isfinite (cMinOf a b i))
                                   (seq 0 (length a)))).
Proof.
  intros Hnea Hneb Ha Hb HpA HpB. exists (finiteMaxMinSq a b).
  split; [apply (hausdorffDistance_value Ha Hb Hnea Hneb HpA HpB)|].
  unfold finiteMaxMinSq.
  destruct (fold_cMaxStep_spec a b (seq 0 (length a)) zero) as (Hzero & Hall & Hatt).
  split.
  - destruct Hatt as [E|(i & Hi & Hfi & E)]; [left; symmetry; exact E|].
    right. rewrite E. apply in_map, filter_In. split; assumption.
  - intros x [<-|Hx]; [exact Hzero|].
    apply in_map_iff in Hx. destruct Hx as (i & <- & Hi).
    apply filter_In in Hi. destruct Hi as [Hi Hfi]. apply Hall; assumption.
Qed.
End PrimitiveFacts.

Section HausdorffDimensions.
Context {T : Type} `{Scalar T}.

(** When the points of [b] have fewer coordinates than the points of [a],
    the first squared distance reads a point of [b] out of range:
    [hausdorffDistance] checks no dimension and has no defined result. *)
Theorem hausdorffDistance_short_points (indicesA indicesB : list nat)
        (a b : trajectory T) :
  a <> [] -> b <> [] ->
  (forall p q, In p a -> In q b -> length q < length p) ->
  Permutation indicesA (seq 0 (length a)) ->
  Permutation indicesB (seq 0 (length b)) ->
  hausdorffDistance indicesA indicesB a b = Undefined.
Proof.
  intros Hnea Hneb Hshort HpA HpB.
  rewrite (hausdorffDistance_nonempty indicesA indicesB Hnea Hneb).
  destruct indicesA as [|iA restA].
  { apply Permutation_nil in HpA. pose proof (nonempty_length Hnea) as Hlen.
    destruct (length a); [lia | discriminate]. }
  destruct indicesB as [|iB restB].
  { apply Permutation_nil in HpB. pose proof (nonempty_length Hneb) as Hlen.
    destruct (length b); [lia | discriminate]. }
  assert (HiA : iA < length a).
  { apply (@shuffled_in_range _ a (iA :: restA) iA HpA). left; reflexivity. }
  assert (HiB : iB < length b).
  { apply (@shuffled_in_range _ b (iB :: restB) iB HpB). left; reflexivity. }
  cbn [forEach]. unfold outerStep at 1. cbn [innerLoop].
  rewrite (at_nth a [] HiA), (at_nth b [] HiB). cbn [bind].
  rewrite sumSquares_short; [reflexivity|].
  apply Hshort; apply nth_In; assumption.
Qed.
End HausdorffDimensions.

(** * A row of the band that is all zero *)

Section ZeroRow.
Context {T : Type} `{ScalarLaws T}.

Lemma bind_plain {X Y : Type} (o : outcome X) (k : X -> outcome Y) :
  plain o -> (forall x, plain (k x)) -> plain (bind o k).
Proof. destruct o; simpl; auto. Qed.

Lemma rd_plain (M : matrix T) (i j : nat) : plain (rd M i j).
Proof. unfold rd. destruct (mget M i j); exact I. Qed.

Lemma isSet_plain (D : matrix T) (i j : nat) : plain (Frechet.isSet D i j).
Proof. unfold Frechet.isSet. apply bind_plain; [apply rd_plain | intros; exact I]. Qed.

Lemma minimumAt_plain (D F : matrix T) (i j : nat) : plain (Frechet.minimumAt D F i j).
Proof.
  unfold Frechet.minimumAt.
  repeat (apply bind_plain; [|intros]);
    repeat match goal with
           | |- plain (if ?b then _ else _) => destruct b
           | |- plain (bind _ _) => apply bind_plain; [|intros]
           | |- plain (Frechet.isSet _ _ _) => apply isSet_plain
           | |- plain (rd _ _ _) => apply rd_plain
           | |- plain (Ret _) => exact I
           end.
Qed.

Lemma skipUnset_plain (cells : list T) (j : nat) : plain (Frechet.skipUnset cells j).
Proof.
  revert j. induction cells as [|x cells IH]; intros j; simpl; [exact I|].
  destruct (eqb x zero); [apply IH | exact I].
Qed.

Lemma sweepRow_plain (D : matrix T) (m : nat) (cells : list T) (i j : nat) (F : matrix T) :
  plain (Frechet.sweepRow D m cells i j F).
Proof.
  revert j F. induction cells as [|x cells IH]; intros j F; simpl; [exact I|].
  destruct (negb (eqb x zero) && (j <? m)); [|exact I].
  apply bind_plain; [apply minimumAt_plain | intros; apply IH].
Qed.

Lemma frechetRow_plain (D : matrix T) (m : nat) (st : nat * matrix T) (i : nat) :
  plain (Frechet.frechetRow D m st i).
Proof.
  destruct st as [jMin F]. unfold Frechet.frechetRow, at_.
  destruct (nth_error D i); [|exact I]. cbn [bind].
  apply bind_plain; [apply skipUnset_plain | intros j].
  apply bind_plain; [apply sweepRow_plain | intros; exact I].
Qed.

Lemma forEach_plain {S X : Type} (body : S -> X -> outcome S) (xs : list X) (s : S) :
  (forall s x, plain (body s x)) -> plain (forEach body xs s).
Proof.
  intros Hbody. revert s. induction xs as [|x xs IH]; intros s; simpl; [exact I|].
  apply bind_plain; [apply Hbody | intros; apply IH].
Qed.




End ZeroRow.

(** * The cells the sweep leaves alone *)

Section Untouched.
Context {T : Type} `{Scalar T}.
Variables (D : matrix T) (m : nat).

Lemma setCell_dec (i k : nat) : {setCell D i k} + {~ setCell D i k}.
Proof.
  unfold setCell. destruct (mget D i k) as [x|].
  - destruct (eqb x zero) eqn:E.
    + right. intros (x' & Ex & Hx). injection Ex as <-. congruence.
    + left. exists x. split; [reflexivity | exact E].
  - right. intros (x' & Ex & _). discriminate.
Qed.

(** A run that does not reach [b] breaks at some cell on the way. *)
Lemma run_breaks (i j0 : nat) :
  forall b, j0 <= b ->
    ~ (forall k, j0 <= k <= b -> setCell D i k) ->
    exists k, j0 <= k <= b /\ ~ setCell D i k.
Proof.
  induction b as [|b IH]; intros Hle Hnot.
  - exists 0. split; [lia|]. intros Hset. apply Hnot.
    intros k Hk. assert (k = 0) as -> by lia. exact Hset.
  - destruct (setCell_dec i (S b)) as [Hset|Hunset]; [|exists (S b); split; [lia | exact Hunset]].
    destruct (Nat.eq_dec j0 (S b)) as [->|Hne].
    + exfalso. apply Hnot. intros k Hk. assert (k = S b) as -> by lia. exact Hset.
    + destruct IH as (k & Hk & Hunset); [lia| |exists k; split; [lia | exact Hunset]].
      intros Hall. apply Hnot. intros k Hk.
      destruct (Nat.eq_dec k (S b)) as [->|Hk']; [exact Hset | apply Hall; lia].
Qed.

Lemma sweepRow_beyond (i : nat) :
  forall cells j F F',
    Frechet.sweepRow D m cells i j F = Ret F' ->
    forall b k,
      j <= k -> k <= b ->
      ~ (exists x, nth_error cells (k - j) = Some x /\ eqb x zero = false) ->
      mget F' i b = mget F i b.
Proof.
  induction cells as [|x cells IH]; intros j F F' Hrun b k Hjk Hkb Hstop; simpl in Hrun.
  - congruence.
  - destruct (eqb x zero) eqn:Ex; simpl in Hrun; [congruence|].
    destruct (j <? m); [|congruence].
    apply bind_Ret_inv in Hrun. destruct Hrun as (mn & _ & Hrun).
    destruct (Nat.eq_dec k j) as [->|Hne].
    + exfalso. apply Hstop. exists x. rewrite Nat.sub_diag. split; [reflexivity | exact Ex].
    + rewrite (IH (S j) _ F' Hrun b k ltac:(lia) Hkb).
      * apply mget_mset_other. intros E. injection E as E. lia.
      * replace (k - j) with (S (k - S j)) in Hstop by lia. exact Hstop.
Qed.

Lemma frechetRow_untouched (jMin j0 i : nat) (F F' : matrix T) :
  Frechet.frechetRow D m (jMin, F) i = Ret (j0, F') ->
  forall a b,
    a <> i \/ b < j0 \/ (exists k, j0 <= k <= b /\ ~ setCell D i k) ->
    mget F' a b = mget F a b.
Proof.
  intros Hrow a b Hout. apply frechetRow_inv in Hrow.
  destruct Hrow as (row & Erow & _ & Hsweep).
  destruct Hout as [Ha|[Hb|(k & Hk & Hunset)]].
  - apply (sweepRow_frame D m i _ _ _ _ Hsweep). left; exact Ha.
  - apply (sweepRow_frame D m i _ _ _ _ Hsweep). right; exact Hb.
  - destruct (Nat.eq_dec a i) as [->|Ha];
      [|apply (sweepRow_frame D m i _ _ _ _ Hsweep); left; exact Ha].
    apply (sweepRow_beyond i _ _ _ _ Hsweep b k); [lia | lia |].
    intros (x & Ex & Hx). apply Hunset. exists x. split; [|exact Hx].
    rewrite nth_error_skipn in Ex. replace (j0 + (k - j0)) with k in Ex by lia.
    unfold mget. rewrite Erow. exact Ex.
Qed.

Lemma rows_untouched :
  forall len s jMin F jEnd Fend,
    1 <= s ->
    rowCursor D (s - 1) = Ret jMin ->
    forEach (Frechet.frechetRow D m) (seq s len) (jMin, F) = Ret (jEnd, Fend) ->
    forall i j,
      i < s \/ s + len <= i \/ (j < m /\ ~ walked D m i j) ->
      mget Fend i j = mget F i j.
Proof.
  induction len as [|len IH]; intros s jMin F jEnd Fend Hs Hcur Hrun i j Hout.
  - simpl in Hrun. injection Hrun as _ ->. reflexivity.
  - cbn [seq forEach] in Hrun.
    apply bind_Ret_inv in Hrun. destruct Hrun as ([j0 F1] & Hrow & Hrest).
    assert (Hcur1 : rowCursor D s = Ret j0).
    { destruct s as [|s']; [lia|]. simpl in Hcur. rewrite Nat.sub_0_r in Hcur.
      simpl. rewrite Hcur. simpl.
      pose proof Hrow as Hinv. apply frechetRow_inv in Hinv.
      destruct Hinv as (row & Erow & Hskip & _).
      unfold at_. rewrite Erow. simpl. exact Hskip. }
    assert (Hcur1' : rowCursor D (S s - 1) = Ret j0)
      by (simpl; rewrite Nat.sub_0_r; exact Hcur1).
    destruct (Nat.eq_dec i s) as [->|Hne].
    + rewrite (IH (S s) j0 F1 jEnd Fend ltac:(lia) Hcur1' Hrest s j) by (left; lia).
      apply (frechetRow_untouched _ _ _ _ _ Hrow).
      destruct Hout as [Hlt|[Hge|[Hjm Hns]]]; try lia.
      destruct (Nat.lt_ge_cases j j0) as [Hb|Hb]; [right; left; exact Hb|].
      right. right. apply (run_breaks s j0 j Hb).
      intros Hall. apply Hns. split; [exact Hs|]. split; [exact Hjm|].
      exists j0. split; [exact Hcur1|]. split; [exact Hb | exact Hall].
    + rewrite (IH (S s) j0 F1 jEnd Fend ltac:(lia) Hcur1' Hrest i j).
      * apply (frechetRow_untouched _ _ _ _ _ Hrow). left; exact Hne.
      * destruct Hout as [Hlt|[Hge|Hns]]; [left; lia | right; left; lia | right; right; exact Hns].
Qed.

End Untouched.

Section UntouchedTheorem.
Context {T : Type} `{Scalar T}.

(** In the coupling matrix that the row loop of [computeFrechetMatrix] has
    reached after the rows [1], ..., [k], every cell other than [(0,0)] and
    the cells of the runs of those rows is still [0], whether its distance
    cell is set or not. *)
Theorem coupling_untouched (fuel : nat) (uninit : T) (l1 l2 A B : trajectory T)
        (D : matrix T) (diagMax : T) (k jMin : nat) (F : matrix T) :
  Frechet.computeDistanceMatrix fuel uninit l1 l2 = Ret (A, B, D, diagMax) ->
  sweptRows D (length A) (length B) k = Ret (jMin, F) ->
  forall i j,
    i < length A -> j < length B -> (i, j) <> (0, 0) ->
    ~ (i <= k /\ inRun D (length B) i j) ->
    mget F i j = Some zero.
Proof.
  intros _ Hrows i j Hi Hj Hne Hns. unfold sweptRows in Hrows.
  apply bind_Ret_inv in Hrows. destruct Hrows as (d00 & _ & Hloop).
  rewrite (rows_untouched D (length B) k 1 0 _ jMin F (le_n 1) eq_refl Hloop i j).
  - rewrite mget_mset_other by (intros E; apply Hne; symmetry; exact E).
    apply mget_zeros; assumption.
  - destruct (Nat.le_gt_cases i k) as [Hik|Hik]; [|right; left; lia].
    right. right. split; [exact Hj|]. intros Hw. apply Hns.
    split; [exact Hik | apply walked_inRun, Hw].
Qed.
End UntouchedTheorem.

(** * The last row *)

Section LastRow.
Context {T : Type} `{ScalarLaws T}.

Lemma coreJ_terminal (n m : nat) :
  1 <= m -> m <= n -> coreJ (n / m) (n mod m) (n - 1) = m - 1.
Proof.
  intros Hm Hnm.
  pose proof (quotient_pos Hm Hnm) as Hq. pose proof (split_length n m) as Hsplit.
  pose proof (remainder_lt Hm Hnm) as Hr. pose proof (core_turn_lt Hm Hnm) as Hturn.
  set (q := n / m) in *. set (r := n mod m) in *.
  unfold coreJ. destruct (Nat.leb_spec (n - 1) (r * (q + 1))) as [Hle|Hgt].
  - assert (Hn1 : n - 1 = r * (q + 1)) by lia.
    rewrite Hn1, Nat.div_mul by lia. nia.
  - symmetry. apply (Nat.div_unique (n - 1 - r) q (m - 1) (q - 1)); [lia | nia].
Qed.

(** A row whose only cell that may be set is the last one: the skip loop
    runs off the row, or the sweep writes the last cell and then reads the
    distance matrix one column past it. *)
Lemma frechetRow_last_column (D : matrix T) (n m i jMin : nat) (F : matrix T) (x : T) :
  shaped n m D -> 1 <= m ->
  (forall j, j < m -> mget D i j = Some (if j =? m - 1 then x else zero)) ->
  Frechet.frechetRow D m (jMin, F) i = Undefined.
Proof.
  intros [Hn Hrows] Hm Hterm. unfold Frechet.frechetRow, at_.
  destruct (nth_error D i) as [row|] eqn:Erow; [|reflexivity]. cbn [bind].
  assert (Hlen : length row = m).
  { rewrite Forall_forall in Hrows. apply Hrows. eapply nth_error_In, Erow. }
  assert (Hcell : forall j, j < m ->
            nth_error row j = Some (if j =? m - 1 then x else zero)).
  { intros j Hj. specialize (Hterm j Hj). unfold mget in Hterm.
    rewrite Erow in Hterm. exact Hterm. }
  pose proof (skipUnset_plain (skipn jMin row) jMin) as Hplain.
  destruct (Frechet.skipUnset (skipn jMin row) jMin) as [j0| | |] eqn:Eskip;
    try destruct Hplain; [|reflexivity].
  cbn [bind].
  destruct (skipUnset_spec _ _ _ Eskip) as (Hle & (y & Hy & Hnz) & _).
  rewrite nth_error_skipn in Hy. replace (jMin + (j0 - jMin)) with j0 in Hy by lia.
  assert (Hj0 : j0 < m).
  { rewrite <- Hlen. apply nth_error_Some. congruence. }
  assert (Ej0 : j0 = m - 1).
  { rewrite (Hcell j0 Hj0) in Hy.
    destruct (Nat.eqb_spec j0 (m - 1)) as [E|_]; [exact E|].
    injection Hy as <-. rewrite (proj2 (eqb_eq zero zero) eq_refl) in Hnz.
    discriminate. }
  subst j0.
  rewrite (skipn_cons_nth row (m - 1) Hy), skipn_all2 by lia.
  cbn [Frechet.sweepRow]. rewrite Hnz.
  assert (Hlt : (m - 1 <? m) = true) by (apply Nat.ltb_lt; lia).
  rewrite Hlt. cbn [negb andb].
  pose proof (minimumAt_plain D F i (m - 1)) as Hmin.
  destruct (Frechet.minimumAt D F i (m - 1)); try destruct Hmin; reflexivity.
Qed.

Lemma couplingFrom_last_row (D : matrix T) (n m : nat) (x : T) :
  shaped n m D -> 1 <= m -> 2 <= n ->
  (forall j, j < m -> mget D (n - 1) j = Some (if j =? m - 1 then x else zero)) ->
  couplingFrom D n m = Undefined.
Proof.
  intros HD Hm Hn Hterm. unfold couplingFrom, rd.
  destruct (shaped_mget (i:=0) (j:=0) HD ltac:(lia) ltac:(lia)) as [d00 Hd00].
  rewrite Hd00. cbn [bind].
  replace (seq 1 (n - 1)) with (seq 1 (n - 2) ++ [n - 1]).
  2:{ replace (n - 1) with (n - 2 + 1) at 2 by lia. rewrite seq_app.
      cbn [seq]. do 2 f_equal. lia. }
  rewrite forEach_app.
  pose proof (forEach_plain (Frechet.frechetRow D m) (seq 1 (n - 2))
                            (0, mset (zeros n m) 0 0 d00)
                            (frechetRow_plain D m)) as Hplain.
  destruct (forEach (Frechet.frechetRow D m) (seq 1 (n - 2))
                    (0, mset (zeros n m) 0 0 d00)) as [[jMin F]| | |];
    try destruct Hplain; [|reflexivity].
  cbn [bind forEach].
  rewrite (frechetRow_last_column D n m (n - 1) jMin F x HD Hm Hterm). reflexivity.
Qed.

Lemma frechetDistance_ordered_undefined (fuel : nat) (uninit : T)
      (A B : trajectory T) (dim : nat) :
  uniform dim A -> uniform dim B ->
  1 <= length B -> length B <= length A -> 2 <= length A ->
  Frechet.frechetDistance fuel uninit A B = Undefined.
Proof.
  intros HA HB Hm Hnm Hn2.
  apply returned_Undefined.
  rewrite (frechetDistance_from_band fuel uninit HA HB Hm Hnm).
  rewrite (couplingFrom_last_row (bandMatrix A B) (length A) (length B)
             (dist A B (length A - 1) (length B - 1)));
    [reflexivity | apply bandMatrix_shaped | exact Hm | exact Hn2 |].
  intros j Hj.
  rewrite (bandMatrix_cells A B Hm Hnm (length A - 1) j ltac:(lia) Hj).
  unfold inBand. rewrite (coreJ_terminal (length A) (length B) Hm Hnm).
  destruct (Nat.eqb_spec j (length B - 1)) as [->|Hne]; [reflexivity|].
  destruct (Nat.eqb_spec (length A - 1) j) as [<-|_]; [|reflexivity].
  destruct (Nat.ltb_spec (length A - 1) (length B)); [lia | reflexivity].
Qed.

(** On non-empty trajectories of one point dimension of which one has two
    or more points, [frechetDistance] has no defined result, for any fuel:
    in the last row of the band only the last cell can be set, so either
    the skip loop runs off the row, or the sweep reaches the last column
    and its loop condition reads [distanceMatrix] one column past the
    row. *)
Theorem frechetDistance_undefined_beyond_one_point (fuel : nat) (uninit : T)
        (l1 l2 : trajectory T) (dim : nat) :
  l1 <> [] -> l2 <> [] -> uniform dim l1 -> uniform dim l2 ->
  2 <= length l1 \/ 2 <= length l2 ->
  Frechet.frechetDistance fuel uninit l1 l2 = Undefined.
Proof.
  intros Hl1 Hl2 Hu1 Hu2 Htwo.
  assert (H1 : 1 <= length l1) by (destruct l1; simpl; [congruence | lia]).
  assert (H2 : 1 <= length l2) by (destruct l2; simpl; [congruence | lia]).
  destruct (Nat.lt_ge_cases (length l1) (length l2)) as [Hlt|Hge].
  - rewrite frechetDistance_swap by exact Hlt.
    apply (frechetDistance_ordered_undefined fuel uninit l2 l1 dim); assumption || lia.
  - apply (frechetDistance_ordered_undefined fuel uninit l1 l2 dim); assumption || lia.
Qed.

(** On two trajectories of a single point each, of one dimension,
    [frechetDistance] returns the Euclidean distance between the two
    points. *)
Theorem frechetDistance_single_points (fuel : nat) (uninit : T) (p q : point T) :
  length p = length q ->
  Frechet.frechetDistance fuel uninit [p] [q] = Ret ([p], [q], euclid p q).
Proof.
  intros Hlen. unfold Frechet.frechetDistance, Frechet.computeFrechetMatrix.
  rewrite (@computeDistanceMatrix_ordered T _ [p] [q] (length p)); cbn [length];
    try lia; try (repeat constructor; congruence).
  cbn beta iota delta [bind]. unfold bandMatrix, bandMax, coreState. cbn.
  unfold dist. cbn [nth].
  destruct (ltb (euclid p q) (smax (euclid p q) (smax (euclid p q) zero)));
    reflexivity.
Qed.
End LastRow.

(** * Instances of the theorems above *)

Lemma frechet_empty_undefined_witness :
  Frechet.frechetDistance 3 0%float [] [[1]; [2]]%float = Undefined.
Proof.
  apply (frechet_empty_undefined 3 0%float [] [[1]; [2]]%float).
  left. reflexivity.
Defined.

Lemma frechetDistance_fuel_independent_witness :
  Frechet.frechetDistance 0 0%float [[0.5]; [3.5]]%float [[0]; [1]; [2]; [3]; [4]]%float
  = Frechet.frechetDistance 7 9%float [[0.5]; [3.5]]%float [[0]; [1]; [2]; [3]; [4]]%float.
Proof.
  apply (frechetDistance_fuel_independent 0 7 0%float 9%float
           [[0.5]; [3.5]]%float [[0]; [1]; [2]; [3]; [4]]%float 1).
  - discriminate.
  - discriminate.
  - repeat constructor.
  - repeat constructor.
Defined.

Lemma band_content_witness :
  exists D diagMax,
    Frechet.computeDistanceMatrix 0 0%float [[0]; [3]; [20]]%float [[1]; [2]; [10]]%float
    = Ret ([[0]; [3]; [20]]%float, [[1]; [2]; [10]]%float, D, diagMax)
    /\ mget D 0 1 = Some 0%float.
Proof.
  destruct (band_content 0 0%float [[0]; [3]; [20]]%float [[1]; [2]; [10]]%float 1)
    as (D & diagMax & Hcall & _ & Hcells).
  - discriminate.
  - discriminate.
  - repeat constructor.
  - repeat constructor.
  - exists D, diagMax. split; [exact Hcall|].
    rewrite (Hcells 0 1) by (simpl; lia). reflexivity.
Defined.

Lemma band_bounded_witness :
  exists A B D diagMax,
    Frechet.computeDistanceMatrix 0 0%Z [[0%Z]; [3%Z]] [[1%Z]; [2%Z]; [10%Z]]
    = Ret (A, B, D, diagMax)
    /\ sle 0%Z diagMax.
Proof.
  destruct (band_bounded 0 0%Z [[0%Z]; [3%Z]] [[1%Z]; [2%Z]; [10%Z]] 1)
    as (A & B & D & diagMax & Hcall & Hpos & _).
  - discriminate.
  - discriminate.
  - repeat constructor.
  - repeat constructor.
  - exists A, B, D, diagMax. split; assumption.
Defined.

Lemma distanceMetric_metric_witness :
  Frechet.distanceMetric [0%Z; 0%Z] [3%Z; 4%Z]
  = Frechet.distanceMetric [3%Z; 4%Z] [0%Z; 0%Z].
Proof.
  apply (proj1 (distanceMetric_metric [0%Z; 0%Z] [3%Z; 4%Z] eq_refl)).
Defined.

Lemma hausdorffDistance_contained_witness :
  hausdorffDistance [1; 0] [2; 0; 1] [[3%Z; 0%Z]; [0%Z; 4%Z]]
                    [[0%Z; 4%Z]; [9%Z; 9%Z]; [3%Z; 0%Z]]
  = Ret 0%Z.
Proof.
  change (Ret 0%Z) with (Ret (zero (T:=Z))).
  apply (hausdorffDistance_contained [1; 0] [2; 0; 1] [[3%Z; 0%Z]; [0%Z; 4%Z]]
           [[0%Z; 4%Z]; [9%Z; 9%Z]; [3%Z; 0%Z]] 2).
  - discriminate.
  - repeat constructor.
  - repeat constructor.
  - intros p [<-|[<-|[]]]; simpl; auto.
  - simpl. apply perm_swap.
  - simpl. apply (Permutation_cons_app [0; 1] [] 2). apply Permutation_refl.
Defined.

Lemma hausdorffDistance_short_points_witness :
  hausdorffDistance [0] [1; 0] [[0; 0; 12]]%float [[3; 4]; [1; 1]]%float = Undefined.
Proof.
  apply (hausdorffDistance_short_points [0] [1; 0] [[0; 0; 12]]%float
           [[3; 4]; [1; 1]]%float).
  - discriminate.
  - discriminate.
  - intros p q [<-|[]] [<-|[<-|[]]]; simpl; lia.
  - apply Permutation_refl.
  - simpl. apply perm_swap.
Defined.


Lemma coupling_untouched_witness :
  mget [[0; 0; 0]; [0x1.fffffffffffffp+1023; 0x1.fffffffffffffp+1023; 0];
        [0x1.fffffffffffffp+1023; 0; 0]; [0; 0x1.fffffffffffffp+1023; 0];
        [0; 0x1.fffffffffffffp+1023; 0]; [0; 0; 0]; [0; 0; 0]]%float 2 2
  = Some 0%float.
Proof.
  refine (@coupling_untouched float _ 0 0%float
            [[0]; [1]; [6]; [4]; [5]; [8]; [9]]%float [[0]; [3]; [7]]%float
            [[0]; [1]; [6]; [4]; [5]; [8]; [9]]%float [[0]; [3]; [7]]%float
            [[0; 0; 0]; [1; 2; 0]; [6; 0; 1]; [0; 1; 0]; [0; 2; 0]; [0; 0; 1]; [0; 0; 2]]%float
            6%float 4 1 _ _ _ 2 2 _ _ _ _).
  - vm_compute. reflexivity.
  - vm_compute. reflexivity.
  - simpl. lia.
  - simpl. lia.
  - discriminate.
  - intros (_ & _ & _ & j0 & Hcur & Hj0 & Hall).
    assert (E : j0 = 0).
    { apply (cursorAt_unique _ 2 j0 0 Hcur).
      apply rowCursor_cursorAt. vm_compute. reflexivity. }
    subst j0. destruct (Hall 1 ltac:(lia)) as (x & Ex & Hx).
    vm_compute in Ex.
    assert (Hz : eqb x zero = true).
    { destruct (f_equal (fun o => match o with Some y => eqb y zero | None => false end) Ex).
      reflexivity. }
    congruence.
Defined.

Lemma frechetDistance_undefined_beyond_one_point_witness :
  Frechet.frechetDistance 0 0%Z [[0%Z; 0%Z]; [1%Z; 0%Z]] [[0%Z; 1%Z]; [1%Z; 1%Z]]
  = Undefined.
Proof.
  apply (frechetDistance_undefined_beyond_one_point 0 0%Z
           [[0%Z; 0%Z]; [1%Z; 0%Z]] [[0%Z; 1%Z]; [1%Z; 1%Z]] 2).
  - discriminate.
  - discriminate.
  - repeat constructor.
  - repeat constructor.
  - left. simpl. lia.
Defined.

Lemma frechetDistance_single_points_witness :
  Frechet.frechetDistance 0 0%float [[1; 5]]%float [[4; 1]]%float
  = Ret ([[1; 5]]%float, [[4; 1]]%float, 5%float).
Proof.
  refine (eq_trans (frechetDistance_single_points 0 0%float [1; 5]%float [4; 1]%float _) _).
  - reflexivity.
  - vm_compute. reflexivity.
Defined.

Lemma hausdorffDistance_finite_rows_witness :
  (exists v,
      hausdorffDistance [1; 0] [0] [[2 ^ 600]; [3]]%Z [[0%Z]] = Ret (sqrt v)
      /\ IsMax v (zero :: map (cMinOf [[2 ^ 600]; [3]]%Z [[0%Z]])
                             (filter (fun i => isfinite (cMinOf [[2 ^ 600]; [3]]%Z [[0%Z]] i))
                                     (seq 0 (length [[2 ^ 600]; [3]]%Z)))))
  /\ hausdorffDistance [1; 0] [0] [[2 ^ 600]; [3]]%Z [[0%Z]] = Ret 3%Z
  /\ filter (fun i => isfinite (cMinOf [[2 ^ 600]; [3]]%Z [[0%Z]] i))
            (seq 0 (length [[2 ^ 600]; [3]]%Z)) = [1].
Proof.
  split; [|split; vm_compute; reflexivity].
  apply (hausdorffDistance_finite_rows [1; 0] [0] [[2 ^ 600]; [3]]%Z [[0%Z]] 1).
  - discriminate.
  - discriminate.
  - repeat constructor.
  - repeat constructor.
  - simpl. apply perm_swap.
  - apply Permutation_refl.
Defined.
